(** * discord-akairo: argument parsing of [Command]

    A shallow embedding of [src/struct/Command.js] ([Command#parse],
    [Command#_splitText], [Command#_getPrefixes]) and the properties of
    the argument parsing engine proved about it.

    Conventions of the embedding.
    - JavaScript strings are sequences of code units below 256 (the
      [string] type); [toLowerCase], [trim] and the class [\s] are the
      ECMAScript ones restricted to that range.
    - [arg.index] and [arg.limit] are integers, [arg.limit] possibly
      [Infinity]; [slice] and indexing follow ECMAScript for them.
    - The result mapping [processed] is a finite map from argument ids to
      values.
    - Functions that the command receives from outside (the resolver
      [process], [allow], [default], a dynamic [match], a cancel function,
      a custom split function, [message.channel.send]) act on an external
      [World]; every call is recorded, in order, in a trace.  Following the
      interfaces of these collaborators only the resolver can fail.
    - Inside the parser a [TypeError] arises from a match type for which
      [parseFuncs] has no entry and from a split option that names a
      property which the object [splitFuncs] inherits: [Object.prototype]
      has the properties of ECMAScript and no other.  An argument read as
      PREFIX or FLAG has a prefix, a string or an array of strings.
    - A computation that fails before [process] is called is an exception
      that [parse] throws; one that fails later is the rejection of the
      promise that [parse] returns.
    - [async] code is sequential: an [await] is the bind of the monad. *)

From Stdlib Require Import ZArith Ascii String List Bool Lia.
From stdpp Require Import base option list gmap strings.

Import ListNotations.
Open Scope string_scope.
Open Scope Z_scope.

(** ** Strings *)

Module Str.

(** The white space of [String.prototype.trim] and of [\s], for code
    units below 256: TAB, LF, VT, FF, CR, SP and NBSP. *)
Definition is_space (c : ascii) : bool :=
  let n := nat_of_ascii c in
  ((9 <=? n)%nat && (n <=? 13)%nat) || (n =? 32)%nat || (n =? 160)%nat.

(** Upper case letters below 256: A-Z, and U+00C0-U+00DE without the
    multiplication sign U+00D7. *)
Definition lower_char (c : ascii) : ascii :=
  let n := nat_of_ascii c in
  if ((65 <=? n)%nat && (n <=? 90)%nat)
     || ((192 <=? n)%nat && (n <=? 222)%nat && negb (n =? 215)%nat)
  then ascii_of_nat (n + 32) else c.

Fixpoint toLowerCase (s : string) : string :=
  match s with
  | EmptyString => EmptyString
  | String c r => String (lower_char c) (toLowerCase r)
  end.

Fixpoint trimStart (s : string) : string :=
  match s with
  | EmptyString => EmptyString
  | String c r => if is_space c then trimStart r else s
  end.

Fixpoint trimEnd (s : string) : string :=
  match s with
  | EmptyString => EmptyString
  | String c r =>
      match trimEnd r with
      | EmptyString => if is_space c then EmptyString else String c EmptyString
      | r' => String c r'
      end
  end.

Definition trim (s : string) : string := trimEnd (trimStart s).

(** [s.startsWith(p)] *)
Fixpoint startsWith (s p : string) : bool :=
  match p, s with
  | EmptyString, _ => true
  | String _ _, EmptyString => false
  | String b p', String a s' => if Ascii.eqb a b then startsWith s' p' else false
  end.

Fixpoint drop (n : nat) (s : string) : string :=
  match n, s with
  | O, _ => s
  | S _, EmptyString => EmptyString
  | S k, String _ r => drop k r
  end.

(** [s.replace(pat, '')] for a string pattern: the first occurrence of
    [pat] is removed. *)
Fixpoint replace_empty (s pat : string) : string :=
  if startsWith s pat then drop (String.length pat) s
  else match s with
       | EmptyString => EmptyString
       | String c r => String c (replace_empty r pat)
       end.

Fixpoint init (s : string) : string :=
  match s with
  | EmptyString => EmptyString
  | String c EmptyString => EmptyString
  | String c r => String c (init r)
  end.

Fixpoint last (s : string) : option ascii :=
  match s with
  | EmptyString => None
  | String c EmptyString => Some c
  | String _ r => last r
  end.

(** [s.slice(1, -1)] *)
Definition slice_1_m1 (s : string) : string :=
  match s with
  | EmptyString => EmptyString
  | String _ r => init r
  end.

Definition dquote : ascii := ascii_of_nat 34.

(** [/^Q[^]+Q$/.test(s)], writing Q for the double quote character: a
    double quote, at least one code unit of any kind, a double quote. *)
Definition test_quoted (s : string) : bool :=
  match s with
  | String a (String b r) =>
      Ascii.eqb a dquote &&
      match last r with Some z => Ascii.eqb z dquote | None => false end
  | _ => false
  end.

(** [arr.join(sep)] *)
Fixpoint join (sep : string) (l : list string) : string :=
  match l with
  | [] => EmptyString
  | [x] => x
  | x :: r => x ++ sep ++ join sep r
  end.

(** The truth value of a string: only [''] is falsy. *)
Definition nonempty (s : string) : bool :=
  match s with EmptyString => false | _ => true end.

(** [s.split(sep)] for a string separator of one code unit or more;
    [skip] counts the code units of a separator still to pass over and
    [cur] holds the piece read so far.  With the empty separator the
    string is split into its code units. *)
Fixpoint split_go (sep : string) (skip : nat) (cur : string) (s : string)
  : list string :=
  match s with
  | EmptyString => [cur]
  | String c r =>
      match skip with
      | S k => split_go sep k cur r
      | O => if startsWith s sep
             then cur :: split_go sep (String.length sep - 1) EmptyString r
             else split_go sep O (cur ++ String c EmptyString) r
      end
  end.

Fixpoint chars (s : string) : list string :=
  match s with
  | EmptyString => []
  | String c r => String c EmptyString :: chars r
  end.

Definition split (s sep : string) : list string :=
  match sep with
  | EmptyString => chars s
  | _ => split_go sep O EmptyString s
  end.

End Str.

(** ** The built-in tokenizers

    [String.prototype.match] with a global regular expression returns the
    successive leftmost matches.  Each of the three expressions below is
    matched by one pass over the content: [cur] is the match being read and
    the scanner state says which part of the expression is being matched. *)

Module Tokenizer.
Import Str.

Definition snoc (s : string) (c : ascii) : string := s ++ String c EmptyString.

Definition flush (cur : string) : list string :=
  if nonempty cur then [cur] else [].

Fixpoint has_dquote (s : string) : bool :=
  match s with
  | EmptyString => false
  | String c r => Ascii.eqb c dquote || has_dquote r
  end.

(** [c.match(/\S+\s?/g)] *)
Fixpoint plain (cur : string) (s : string) : list string :=
  match s with
  | EmptyString => flush cur
  | String c r =>
      if is_space c
      then (if nonempty cur then snoc cur c :: plain EmptyString r
            else plain EmptyString r)
      else plain (snoc cur c) r
  end.

Inductive scan := Idle | Word | Pre | Quote | Closed.

(** [c.match(/Q[^]*?Q\s?|\S+\s?|Q/g)], writing Q for the double quote
    character: at a double quote that has a closing double quote the
    first alternative matches up to it; elsewhere the second alternative
    takes the run of non-blanks (a double quote is a non-blank, so the
    third alternative never applies). *)
Fixpoint quoted (st : scan) (cur : string) (s : string) : list string :=
  match s with
  | EmptyString => flush cur
  | String c r =>
      let start :=
        if is_space c then quoted Idle EmptyString r
        else if Ascii.eqb c dquote && has_dquote r
             then quoted Quote (String c EmptyString) r
             else quoted Word (String c EmptyString) r in
      match st with
      | Idle | Pre => start
      | Word => if is_space c then snoc cur c :: quoted Idle EmptyString r
                else quoted Word (snoc cur c) r
      | Quote => if Ascii.eqb c dquote then quoted Closed (snoc cur c) r
                 else quoted Quote (snoc cur c) r
      | Closed => if is_space c then snoc cur c :: quoted Idle EmptyString r
                  else cur :: start
      end
  end.

(** Whether [[^\sQ]*?Q[^]*?Q] matches at the head of [s]: the non-blank,
    non-quote run at the head is followed by a double quote that has a
    closing double quote. *)
Fixpoint sticky_ahead (s : string) : bool :=
  match s with
  | EmptyString => false
  | String c r =>
      if Ascii.eqb c dquote then has_dquote r
      else if is_space c then false
      else sticky_ahead r
  end.

(** [c.match(/[^\sQ]*?Q[^]*?Q\s?|\S+\s?|Q/g)] *)
Fixpoint sticky (st : scan) (cur : string) (s : string) : list string :=
  match s with
  | EmptyString => flush cur
  | String c r =>
      let start :=
        if is_space c then sticky Idle EmptyString r
        else if sticky_ahead s
             then (if Ascii.eqb c dquote
                   then sticky Quote (String c EmptyString) r
                   else sticky Pre (String c EmptyString) r)
             else sticky Word (String c EmptyString) r in
      match st with
      | Idle => start
      | Word => if is_space c then snoc cur c :: sticky Idle EmptyString r
                else sticky Word (snoc cur c) r
      | Pre => if Ascii.eqb c dquote then sticky Quote (snoc cur c) r
               else sticky Pre (snoc cur c) r
      | Quote => if Ascii.eqb c dquote then sticky Closed (snoc cur c) r
                 else sticky Quote (snoc cur c) r
      | Closed => if is_space c then snoc cur c :: sticky Idle EmptyString r
                  else cur :: start
      end
  end.

End Tokenizer.

(** ** Values, thrown values and the trace of calls *)

(** The values that flow through the parser.  Numbers are kept as
    integers and [NaN], which is what their truth value depends on; [VObj]
    stands for any other object (an embed, an attachment, message
    options). *)
#[warnings="-register-all"]
Inductive value :=
| VUndefined
| VNull
| VBool (b : bool)
| VNum (n : Z)
| VNaN
| VStr (s : string)
| VArr (l : list value)
| VObj (ref : nat).

(** [Boolean(v)] *)
Definition truthy (v : value) : bool :=
  match v with
  | VUndefined | VNull | VNaN => false
  | VBool b => b
  | VNum n => negb (n =? 0)%Z
  | VStr s => Str.nonempty s
  | VArr _ | VObj _ => true
  end.

(** [v == null] *)
Definition nullish (v : value) : bool :=
  match v with VUndefined | VNull => true | _ => false end.

(** [v === b] for a boolean [b] *)
Definition is_bool (b : bool) (v : value) : bool :=
  match v with VBool b' => Bool.eqb b b' | _ => false end.

(** What a rejected promise carries: the symbol
    [Symbols.COMMAND_CANCELLED], the [TypeError] of a call through a
    missing entry of [parseFuncs] or of a split through an inherited
    property of [splitFuncs], or a value thrown by the resolver. *)
Inductive thrown :=
| COMMAND_CANCELLED
| TypeError
| Thrown (v : value).

Inductive Outcome (A : Type) :=
| Resolved (a : A)
| Rejected (e : thrown).
Arguments Resolved {A} a.
Arguments Rejected {A} e.

(** One entry per call that leaves the parser, with the arguments of the
    call; [processed] is the result mapping as the callee sees it. *)
Inductive event :=
| SplitText (content : string)
| CancelCall (processed : gmap string value)
| AllowCall (id : string) (processed : gmap string value)
| MatchCall (id : string) (processed : gmap string value)
| ProcessCall (id : string) (word : string) (processed : gmap string value)
| DefaultCall (id : string) (processed : gmap string value)
| Send (payload : value).

Module ArgumentMatches.
(** The keys of [Constants.ArgumentMatches]; [UNKNOWN] is any other
    value of [arg.match], for which [parseFuncs] has no entry. *)
Inductive t := WORD | REST | SEPARATE | PREFIX | FLAG | TEXT | CONTENT | NONE | UNKNOWN.

Definition eqb (a b : t) : bool :=
  match a, b with
  | WORD, WORD | REST, REST | SEPARATE, SEPARATE | PREFIX, PREFIX
  | FLAG, FLAG | TEXT, TEXT | CONTENT, CONTENT | NONE, NONE => true
  | _, _ => false
  end.
End ArgumentMatches.

Module ArgumentSplits.
(** The keys of [Constants.ArgumentSplits]. *)
Inductive t := PLAIN | SPLIT | QUOTED | STICKY | NONE.

(** The strings they stand for, as the documentation of [ArgumentSplit]
    lists them. *)
Definition key (name : t) : string :=
  match name with
  | PLAIN => "plain"
  | SPLIT => "split"
  | QUOTED => "quoted"
  | STICKY => "sticky"
  | NONE => "none"
  end.

Definition all : list t := [PLAIN; SPLIT; QUOTED; STICKY; NONE].
End ArgumentSplits.

Module ObjectPrototype.
(** The properties of [Object.prototype], which an object literal such as
    [splitFuncs] inherits. *)
Inductive t :=
| constructor
| hasOwnProperty
| isPrototypeOf
| propertyIsEnumerable
| toLocaleString
| toString
| valueOf
| defineGetter
| defineSetter
| lookupGetter
| lookupSetter
| proto.

Definition key (p : t) : string :=
  match p with
  | constructor => "constructor"
  | hasOwnProperty => "hasOwnProperty"
  | isPrototypeOf => "isPrototypeOf"
  | propertyIsEnumerable => "propertyIsEnumerable"
  | toLocaleString => "toLocaleString"
  | toString => "toString"
  | valueOf => "valueOf"
  | defineGetter => "__defineGetter__"
  | defineSetter => "__defineSetter__"
  | lookupGetter => "__lookupGetter__"
  | lookupSetter => "__lookupSetter__"
  | proto => "__proto__"
  end.

Definition all : list t :=
  [constructor; hasOwnProperty; isPrototypeOf; propertyIsEnumerable;
   toLocaleString; toString; valueOf; defineGetter; defineSetter;
   lookupGetter; lookupSetter; proto].
End ObjectPrototype.

(** What the object [splitFuncs] has under a name: one of its own five
    entries, or a property inherited from [Object.prototype]. *)
Inductive Property :=
| Own (name : ArgumentSplits.t)
| Inherited (p : ObjectPrototype.t).

(** [arg.limit]: a number of words, [Infinity] when unset. *)
Inductive Limit := Finite (n : Z) | Infinity.

Definition add_limit (index : Z) (l : Limit) : Limit :=
  match l with
  | Finite n => Finite (index + n)
  | Infinity => Infinity
  end.

(** [arg.prefix]: a string or an array of strings.  An argument that is
    given no prefix has [undefined] there, which only the PREFIX and FLAG
    functions and [_getPrefixes] would read; such an argument carries a
    value that is not read. *)
Inductive ArgPrefix :=
| PrefixStr (p : string)
| PrefixArr (ps : list string).

(** [arr.slice(start, end)] with the relative indices of ECMAScript: a
    negative index counts from the end and both ends are clamped. *)
Definition slice {A} (start : Z) (end_ : Limit) (l : list A) : list A :=
  let len := Z.of_nat (length l) in
  let k := if start <? 0 then Z.max (len + start) 0 else Z.min start len in
  let final :=
    match end_ with
    | Infinity => len
    | Finite e => if e <? 0 then Z.max (len + e) 0 else Z.min e len
    end in
  firstn (Z.to_nat (final - k)) (skipn (Z.to_nat k) l).

(** [arr[index]]: [undefined] outside of the array. *)
Definition item {A} (l : list A) (index : Z) : option A :=
  if index <? 0 then None else nth_error l (Z.to_nat index).

(** ** Effects

    [World] is the state outside of the parser that the functions given to
    the command may read and change; [trace] lists the calls made so far,
    oldest first.  A computation resolves or rejects, as a promise does. *)

Section Engine.

Context {Message World : Type}.

Record Sys := { world : World; trace : list event }.

Definition Eff (A : Type) : Type := Sys -> Outcome A * Sys.

Definition ret {A} (a : A) : Eff A := fun s => (Resolved a, s).

Definition throw {A} (e : thrown) : Eff A := fun s => (Rejected e, s).

Definition bind {A B} (m : Eff A) (k : A -> Eff B) : Eff B :=
  fun s =>
    match m s with
    | (Resolved a, s') => k a s'
    | (Rejected e, s') => (Rejected e, s')
    end.

Notation "'let*' x := m 'in' k" := (bind m (fun x => k))
  (at level 10, x pattern, m at level 100, k at level 200).

(** A call of an outside function that returns: the call is appended to
    the trace and the function runs on the world. *)
Definition call {A} (e : event) (f : World -> A * World) : Eff A :=
  fun s =>
    let (a, w) := f (world s) in
    (Resolved a, {| world := w; trace := (trace s ++ [e])%list |}).

(** A call of an outside function that may throw or reject. *)
Definition attempt {A} (e : event) (f : World -> Outcome A * World) : Eff A :=
  fun s =>
    let (r, w) := f (world s) in
    (r, {| world := w; trace := (trace s ++ [e])%list |}).

(** ** Arguments, slots and the command *)

(** [arg.match]: a match type or a function of the message and of the
    arguments parsed so far. *)
Inductive ArgMatch :=
| Static (m : ArgumentMatches.t)
| Dynamic (f : Message -> gmap string value -> World -> ArgumentMatches.t * World).

(** The fields of an [Argument] that [Command] reads. *)
Record Argument := {
  arg_id : string;
  arg_match : ArgMatch;
  arg_index : option Z;
  arg_limit : Limit;
  arg_prefix : ArgPrefix;
  arg_allow : Message -> gmap string value -> World -> bool * World;
  arg_default : Message -> gmap string value -> World -> value * World;
  arg_process : string -> Message -> gmap string value -> World -> Outcome value * World
}.

(** An item of [this.args]: an argument, an array of arguments of which
    the first allowed one runs, or a cancel function. *)
Inductive Slot :=
| Single (arg : Argument)
| Group (alts : list Argument)
| Cancel (f : Message -> gmap string value -> World -> value * World).

(** What a split function returns: an array of words that may carry an
    [isQuoted] property. *)
Record Words := { items : list string; words_isQuoted : bool }.

(** What [_splitText] returns: an array of words or, through an inherited
    property of [splitFuncs], a value that is not an array (an object, a
    string, [true] or a function). *)
Inductive Split :=
| Array (words : Words)
| NotArray.

(** [this.split]: a string (one of the names of [ArgumentSplits], or a
    separator), a function (which may return nothing), or a regular
    expression, kept as the function [c => c.split(re)]: as a key, a
    regular expression is its source between slashes, which names no
    property of [splitFuncs]. *)
Inductive SplitOption :=
| SplitString (s : string)
| SplitFunction (f : string -> Message -> World -> option Words * World)
| SplitRegExp (f : string -> list string).

(** [this.split] set to one of the constants of [ArgumentSplits]. *)
Definition SplitName (name : ArgumentSplits.t) : SplitOption :=
  SplitString (ArgumentSplits.key name).

Record Command := { args : list Slot; split : SplitOption }.

(** ** [_splitText] *)

Definition plain_words (l : list string) : Words :=
  {| items := l; words_isQuoted := false |}.

Definition splitFuncs (name : ArgumentSplits.t) (c : string) : list string :=
  match name with
  | ArgumentSplits.PLAIN => Tokenizer.plain EmptyString c
  | ArgumentSplits.SPLIT => Str.split c " "
  | ArgumentSplits.QUOTED => Tokenizer.quoted Tokenizer.Idle EmptyString c
  | ArgumentSplits.STICKY => Tokenizer.sticky Tokenizer.Idle EmptyString c
  | ArgumentSplits.NONE => [c]
  end.

(** [splitFuncs[name]]: an own entry first, then the prototype. *)
Definition property (name : string) : option Property :=
  match List.find (fun own => String.eqb name (ArgumentSplits.key own))
                  ArgumentSplits.all with
  | Some own => Some (Own own)
  | None =>
      match List.find (fun p => String.eqb name (ObjectPrototype.key p))
                      ObjectPrototype.all with
      | Some p => Some (Inherited p)
      | None => None
      end
  end.

(** [splitFuncs[name](content) || []] for an inherited property, a method
    call on [splitFuncs] with the content as its only argument.
    [Object(content)], [toString], [toLocaleString] and [valueOf] return
    an object or a string; [hasOwnProperty] and [propertyIsEnumerable]
    return whether the content is one of the five own keys;
    [isPrototypeOf] returns [false] for a string; [__lookupGetter__] and
    [__lookupSetter__] return a function for [__proto__], the one
    accessor in reach, and [undefined] otherwise; [__defineGetter__] and
    [__defineSetter__] throw for want of a function as second argument,
    and the value of [__proto__] is an object that cannot be called. *)
Definition inherited (p : ObjectPrototype.t) (content : string) : Outcome Split :=
  let own_key :=
    existsb (fun own => String.eqb content (ArgumentSplits.key own))
            ArgumentSplits.all in
  let accessor := String.eqb content (ObjectPrototype.key ObjectPrototype.proto) in
  match p with
  | ObjectPrototype.constructor
  | ObjectPrototype.toString
  | ObjectPrototype.toLocaleString
  | ObjectPrototype.valueOf => Resolved NotArray
  | ObjectPrototype.hasOwnProperty
  | ObjectPrototype.propertyIsEnumerable =>
      Resolved (if own_key then NotArray else Array (plain_words []))
  | ObjectPrototype.isPrototypeOf => Resolved (Array (plain_words []))
  | ObjectPrototype.lookupGetter
  | ObjectPrototype.lookupSetter =>
      Resolved (if accessor then NotArray else Array (plain_words []))
  | ObjectPrototype.defineGetter
  | ObjectPrototype.defineSetter
  | ObjectPrototype.proto => Rejected TypeError
  end.

Definition _splitText (this : Command) (content : string) (message : Message)
  : Eff Split :=
  match split this with
  | SplitFunction f =>
      let* r := call (SplitText content) (f content message) in
      ret (Array (match r with Some ws => ws | None => plain_words [] end))
  | SplitString name =>
      match property name with
      | Some (Own own) =>
          call (SplitText content)
               (fun w => (Array (plain_words (splitFuncs own content)), w))
      | Some (Inherited p) =>
          attempt (SplitText content) (fun w => (inherited p content, w))
      | None =>
          call (SplitText content)
               (fun w => (Array (plain_words (Str.split content name)), w))
      end
  | SplitRegExp f =>
      call (SplitText content) (fun w => (Array (plain_words (f content)), w))
  end.

(** ** [_getPrefixes] *)

Record PrefixEntry := { entry_value : string; entry_flag : bool }.

Definition is_static (m : ArgumentMatches.t) (arg : Argument) : bool :=
  match arg_match arg with
  | Static m' => ArgumentMatches.eqb m' m
  | Dynamic _ => false
  end.

Definition pushPrefix (prefixes : list PrefixEntry) (arg : Argument)
  : list PrefixEntry :=
  if is_static ArgumentMatches.PREFIX arg || is_static ArgumentMatches.FLAG arg
  then
    match arg_prefix arg with
    | PrefixArr ps =>
        fold_left
          (fun acc p =>
             (acc ++ [{| entry_value := Str.toLowerCase p;
                         entry_flag := is_static ArgumentMatches.FLAG arg |}])%list)
          ps prefixes
    | PrefixStr p =>
        (prefixes ++ [{| entry_value := Str.toLowerCase p;
                         entry_flag := is_static ArgumentMatches.FLAG arg |}])%list
    end
  else prefixes.

Definition _getPrefixes (this : Command) : list PrefixEntry :=
  fold_left
    (fun prefixes slot =>
       match slot with
       | Group alts => fold_left pushPrefix alts prefixes
       | Single arg => pushPrefix prefixes arg
       | Cancel _ => prefixes
       end)
    (args this) [].

(** The filter of [parse] that yields [noPrefixWords]. *)
Definition hits (w : string) (p : PrefixEntry) : bool :=
  if negb (entry_flag p)
  then Str.startsWith (Str.toLowerCase w) (entry_value p)
  else String.eqb (Str.toLowerCase w) (entry_value p).

Definition keep_word (prefixes : list PrefixEntry) (w : string) : bool :=
  let w := Str.trim w in
  negb (existsb (hits w) prefixes).

Definition noPrefix (prefixes : list PrefixEntry) (words : list string)
  : list string :=
  List.filter (keep_word prefixes) words.

(** ** The match functions of [parse]

    The functions of [parseFuncs] close over [this], [content], the
    words, [isQuoted] and [noPrefixWords].  Each returns the function
    that [process] awaits; that function receives the shared object
    [processed] and gives it back with its value, since the one of
    [SEPARATE] writes to it. *)

Definition Evaluator : Type :=
  Message -> gmap string value -> Eff (value * gmap string value).

(** [arg.process(word, msg, processed)] *)
Definition process_call (arg : Argument) (word : string) (msg : Message)
    (processed : gmap string value) : Eff value :=
  attempt (ProcessCall (arg_id arg) word processed)
          (arg_process arg word msg processed).

(** [arg.process.bind(arg, word)] *)
Definition process_bind (arg : Argument) (word : string) : Evaluator :=
  fun msg processed =>
    let* v := process_call arg word msg processed in
    ret (v, processed).

Section ParseFuncs.

Variable this : Command.
Variable content : string.
Variable words : list string.
Variable isQuoted : bool.
Variable noPrefixWords : list string.

(** [arg.index != null ? arg.index : index] *)
Definition index_or (arg : Argument) (index : Z) : Z :=
  match arg_index arg with Some i => i | None => index end.

(** [this.split === ArgumentSplits.SPLIT ? ' ' : ''] *)
Definition joiner : string :=
  match split this with
  | SplitString s =>
      if String.eqb s (ArgumentSplits.key ArgumentSplits.SPLIT)
      then " " else EmptyString
  | _ => EmptyString
  end.

(** The removal of the quotes around a word, shared by [WORD] and
    [PREFIX]. *)
Definition unquote (word : string) : string :=
  if isQuoted && Str.test_quoted (Str.trim word)
  then Str.slice_1_m1 (Str.trim word)
  else word.

Definition parseWORD (arg : Argument) (index : Z) : Evaluator :=
  let index := index_or arg index in
  let word := match item noPrefixWords index with
              | Some w => w
              | None => EmptyString
              end in
  process_bind arg (unquote word).

Definition parseREST (arg : Argument) (index : Z) : Evaluator :=
  let index := index_or arg index in
  let word :=
    Str.join joiner (slice index (add_limit index (arg_limit arg)) noPrefixWords) in
  process_bind arg word.

(** The loop of the [SEPARATE] function: [res] is the array that
    [processed[arg.id]] refers to, so each push shows in [processed]. *)
Fixpoint separate_loop (arg : Argument) (msg : Message) (wordArr : list string)
    (res : list value) (processed : gmap string value)
  : Eff (list value * gmap string value) :=
  match wordArr with
  | [] => ret (res, processed)
  | word :: rest =>
      let* v := process_call arg word msg processed in
      let res := (res ++ [v])%list in
      separate_loop arg msg rest res (<[arg_id arg := VArr res]> processed)
  end.

Definition parseSEPARATE (arg : Argument) (index : Z) : Evaluator :=
  let index := index_or arg index in
  let wordArr := slice index (add_limit index (arg_limit arg)) noPrefixWords in
  match wordArr with
  | [] => process_bind arg EmptyString
  | _ =>
      fun msg processed =>
        let res := [] in
        let processed := <[arg_id arg := VArr res]> processed in
        let* (res, processed) := separate_loop arg msg wordArr res processed in
        ret (VArr res, processed)
  end.

(** The loop of the [PREFIX] function over the words, last word first:
    [ws] is what is left of the reversed array.  It yields
    [prefixUsed] and [wordFound], or nothing when both stay
    undefined. *)
Fixpoint prefix_loop (arg : Argument) (ws : list string)
  : option (string * string) :=
  match ws with
  | [] => None
  | w :: rest =>
      let word := Str.toLowerCase (Str.trim w) in
      match arg_prefix arg with
      | PrefixArr ps =>
          match List.find (fun prefix => Str.startsWith word (Str.toLowerCase prefix)) ps with
          | Some prefix => Some (prefix, word)
          | None => prefix_loop arg rest
          end
      | PrefixStr p =>
          if Str.startsWith word (Str.toLowerCase p)
          then Some (p, word)
          else prefix_loop arg rest
      end
  end.

(** The word that the [PREFIX] function gives to the resolver. *)
Definition prefix_word (arg : Argument) : string :=
  match prefix_loop arg (rev words) with
  | Some (prefixUsed, wordFound) =>
      if Str.nonempty wordFound && Str.nonempty prefixUsed
      then unquote (Str.replace_empty wordFound prefixUsed)
      else wordFound
  | None => EmptyString
  end.

Definition parsePREFIX (arg : Argument) (index : Z) : Evaluator :=
  process_bind arg (prefix_word arg).

(** The loops of the [FLAG] function.  With an array of prefixes the
    [break] leaves the inner loop only. *)
Fixpoint flag_inner (word : string) (ps : list string) (flagFound : bool) : bool :=
  match ps with
  | [] => flagFound
  | prefix :: rest =>
      if String.eqb word (Str.toLowerCase prefix) then true
      else flag_inner word rest flagFound
  end.

Fixpoint flag_loop (arg : Argument) (ws : list string) (flagFound : bool) : bool :=
  match ws with
  | [] => flagFound
  | w :: rest =>
      let word := Str.toLowerCase (Str.trim w) in
      match arg_prefix arg with
      | PrefixArr ps => flag_loop arg rest (flag_inner word ps flagFound)
      | PrefixStr p =>
          if String.eqb word (Str.toLowerCase p) then true
          else flag_loop arg rest flagFound
      end
  end.

Definition parseFLAG (arg : Argument) (index : Z) : Evaluator :=
  let flagFound := flag_loop arg (rev words) false in
  fun msg processed =>
    let* d := call (DefaultCall (arg_id arg) processed)
                   (arg_default arg msg processed) in
    let inverse := negb (truthy d) in
    ret (VBool (if inverse then flagFound else negb flagFound), processed).

Definition parseTEXT (arg : Argument) (index : Z) : Evaluator :=
  let index := match arg_index arg with None => 0 | Some i => i end in
  let word :=
    Str.join joiner (slice index (add_limit index (arg_limit arg)) noPrefixWords) in
  process_bind arg word.

Definition parseCONTENT (arg : Argument) (index : Z) : Evaluator :=
  let index := match arg_index arg with None => 0 | Some i => i end in
  let word :=
    Str.join " " (slice index (add_limit index (arg_limit arg)) (Str.split content " ")) in
  process_bind arg word.

Definition parseNONE (arg : Argument) (index : Z) : Evaluator :=
  process_bind arg EmptyString.

Definition parseFuncs (matchType : ArgumentMatches.t)
  : option (Argument -> Z -> Evaluator) :=
  match matchType with
  | ArgumentMatches.WORD => Some parseWORD
  | ArgumentMatches.REST => Some parseREST
  | ArgumentMatches.SEPARATE => Some parseSEPARATE
  | ArgumentMatches.PREFIX => Some parsePREFIX
  | ArgumentMatches.FLAG => Some parseFLAG
  | ArgumentMatches.TEXT => Some parseTEXT
  | ArgumentMatches.CONTENT => Some parseCONTENT
  | ArgumentMatches.NONE => Some parseNONE
  | ArgumentMatches.UNKNOWN => None
  end.

End ParseFuncs.

(** ** [parse] *)

(** [message.channel.send], which [parse] awaits. *)
Variable send : Message -> value -> World -> unit * World.

Section Process.

Variable this : Command.
Variable content : string.
Variable message : Message.
Variable words : list string.
Variable isQuoted : bool.
Variable noPrefixWords : list string.

(** [[WORD, REST, SEPARATE].includes(matchType)] *)
Definition positional (matchType : ArgumentMatches.t) : bool :=
  match matchType with
  | ArgumentMatches.WORD | ArgumentMatches.REST | ArgumentMatches.SEPARATE => true
  | _ => false
  end.

Definition allow_call (arg : Argument) (processed : gmap string value) : Eff bool :=
  call (AllowCall (arg_id arg) processed) (arg_allow arg message processed).

(** [arg.find(a => a.allow(message, processed))] *)
Fixpoint find_allowed (alts : list Argument) (processed : gmap string value)
  : Eff (option Argument) :=
  match alts with
  | [] => ret None
  | a :: rest =>
      let* ok := allow_call a processed in
      if ok then ret (Some a) else find_allowed rest processed
  end.

(** [typeof arg.match === 'function' ? arg.match(message, processed) : arg.match] *)
Definition match_type (arg : Argument) (processed : gmap string value)
  : Eff ArgumentMatches.t :=
  match arg_match arg with
  | Dynamic f => call (MatchCall (arg_id arg) processed) (f message processed)
  | Static m => ret m
  end.

(** The end of the body of [process], from the computation of
    [matchType] to the assignment of [processed[arg.id]]: the new
    values of [wordIndex] and [processed]. *)
Definition evaluate (arg : Argument) (wordIndex : Z) (processed : gmap string value)
  : Eff (Z * gmap string value) :=
  let* matchType := match_type arg processed in
  match parseFuncs this content words isQuoted noPrefixWords matchType with
  | None => throw TypeError
  | Some parseFunc =>
      let processFunc := parseFunc arg wordIndex in
      let wordIndex := if positional matchType then wordIndex + 1 else wordIndex in
      let* (res, processed) := processFunc message processed in
      ret (wordIndex, <[arg_id arg := res]> processed)
  end.

(** The call of a cancel function and what follows it. *)
Definition cancel_slot (f : Message -> gmap string value -> World -> value * World)
    (wordIndex : Z) (processed : gmap string value)
  : Eff (Z * gmap string value) :=
  let* cancel := call (CancelCall processed) (f message processed) in
  if negb (nullish cancel) && negb (is_bool false cancel)
  then
    let* _ := (if truthy cancel && negb (is_bool true cancel)
               then call (Send cancel) (send message cancel)
               else ret tt) in
    throw COMMAND_CANCELLED
  else ret (wordIndex, processed).

(** One turn of [process] on the slot [this.args[i]], up to the call
    [process(i + 1)]. *)
Definition step (slot : Slot) (wordIndex : Z) (processed : gmap string value)
  : Eff (Z * gmap string value) :=
  match slot with
  | Cancel f => cancel_slot f wordIndex processed
  | Group alts =>
      let* found := find_allowed alts processed in
      match found with
      | None => ret (wordIndex, processed)
      | Some arg => evaluate arg wordIndex processed
      end
  | Single arg =>
      let* ok := allow_call arg processed in
      if ok then evaluate arg wordIndex processed
      else ret (wordIndex, processed)
  end.

(** [process(i)], with [slots] the items of [this.args] from [i] on.
    It resolves to the final values of [wordIndex] and [processed]. *)
Fixpoint process (slots : list Slot) (wordIndex : Z) (processed : gmap string value)
  : Eff (Z * gmap string value) :=
  match slots with
  | [] => ret (wordIndex, processed)
  | slot :: rest =>
      let* (wordIndex, processed) := step slot wordIndex processed in
      process rest wordIndex processed
  end.

End Process.

(** [this.split === QUOTED || this.split === STICKY || words.isQuoted] *)
Definition quoting (this : Command) (words : Words) : bool :=
  match split this with
  | SplitString s =>
      String.eqb s (ArgumentSplits.key ArgumentSplits.QUOTED)
      || String.eqb s (ArgumentSplits.key ArgumentSplits.STICKY)
      || words_isQuoted words
  | _ => words_isQuoted words
  end.

(** A value that is not an array has no [isQuoted] and no [filter]: the
    call [words.filter] throws, after [_getPrefixes], which calls nothing
    outside. *)
Definition parse (this : Command) (content : string) (message : Message)
  : Eff (gmap string value) :=
  match args this with
  | [] => ret ∅
  | _ =>
      let* words := _splitText this content message in
      match words with
      | NotArray => throw TypeError
      | Array words =>
          let isQuoted := quoting this words in
          let prefixes := _getPrefixes this in
          let noPrefixWords := noPrefix prefixes (items words) in
          let* (_, processed) :=
            process this content message (items words) isQuoted noPrefixWords
                    (args this) 0 ∅ in
          ret processed
      end
  end.

End Engine.

(** ** The specification's view of prefixes and flags

    These definitions follow the wording of the specification; the
    theorems below relate them to the functions of [Command]. *)

Section Specification.

Context {Message World : Type}.
Abbreviation Argument := (@Argument Message World).
Abbreviation Slot := (@Slot Message World).
Abbreviation Command := (@Command Message World).

(** The argument list with the alternative groups flattened. *)
Definition flat_args (slots : list Slot) : list Argument :=
  flat_map (fun slot =>
              match slot with
              | Single arg => [arg]
              | Group alts => alts
              | Cancel _ => []
              end) slots.

Definition prefix_values (p : ArgPrefix) : list string :=
  match p with
  | PrefixStr v => [v]
  | PrefixArr vs => vs
  end.

(** One descriptor per prefix value of a PREFIX-mode or FLAG-mode
    argument. *)
Definition spec_descriptors_of (arg : Argument) : list PrefixEntry :=
  match arg_match arg with
  | Static ArgumentMatches.PREFIX =>
      map (fun v => {| entry_value := Str.toLowerCase v; entry_flag := false |})
          (prefix_values (arg_prefix arg))
  | Static ArgumentMatches.FLAG =>
      map (fun v => {| entry_value := Str.toLowerCase v; entry_flag := true |})
          (prefix_values (arg_prefix arg))
  | _ => []
  end.

Definition spec_descriptors (this : Command) : list PrefixEntry :=
  flat_map spec_descriptors_of (flat_args (args this)).

(** A token is a marker when, trimmed and in lower case, it starts with
    the value of a non-flag descriptor or equals the value of a flag
    descriptor. *)
Definition spec_is_marker (this : Command) (token : string) : bool :=
  let t := Str.toLowerCase (Str.trim token) in
  existsb (fun d => if entry_flag d
                    then String.eqb t (entry_value d)
                    else Str.startsWith t (entry_value d))
          (spec_descriptors this).

Definition spec_filtered_pool (this : Command) (pool : list string) : list string :=
  List.filter (fun token => negb (spec_is_marker this token)) pool.

(** Whether some token of the pool, trimmed and in lower case, equals a
    prefix value of the argument (compared in lower case). *)
Definition spec_flag_found (arg : Argument) (pool : list string) : bool :=
  existsb (fun token =>
             existsb (fun v => String.eqb (Str.toLowerCase (Str.trim token))
                                          (Str.toLowerCase v))
                     (prefix_values (arg_prefix arg)))
          pool.

(** The PREFIX scan in the words of the specification: the first prefix
    value, in the order of the list, that a token starts with once trimmed
    and in lower case; and the last token of the pool that has such a
    value, with that value. *)
Definition spec_hit_value (arg : Argument) (token : string) : option string :=
  List.find (fun v => Str.startsWith (Str.toLowerCase (Str.trim token))
                                     (Str.toLowerCase v))
            (prefix_values (arg_prefix arg)).

Definition spec_last_hit (arg : Argument) (pool : list string)
  : option (string * string) :=
  match List.find (fun token => match spec_hit_value arg token with
                                | Some _ => true
                                | None => false
                                end) (rev pool) with
  | Some token =>
      match spec_hit_value arg token with
      | Some v => Some (v, Str.toLowerCase (Str.trim token))
      | None => None
      end
  | None => None
  end.

(** The removal of one layer of surrounding double quotes. *)
Definition spec_dequote (s : string) : string :=
  match s with
  | String a r =>
      match Str.last r with
      | Some z => if Ascii.eqb a Str.dquote && Ascii.eqb z Str.dquote
                  then Str.slice_1_m1 s else s
      | None => s
      end
  | EmptyString => s
  end.

(** What the PREFIX mode feeds to the resolver as the specification words
    it: on a hit the prefix is stripped from the token, the rest is
    trimmed, and de-quoted if [isQuoted]; without a hit it is the empty
    string. *)
Definition spec_prefix_word (isQuoted : bool) (arg : Argument) (pool : list string)
  : string :=
  match spec_last_hit arg pool with
  | Some (v, token) =>
      let rest := Str.trim (Str.drop (String.length v) token) in
      if isQuoted then spec_dequote rest else rest
  | None => EmptyString
  end.

(** What the PREFIX function of [parse] feeds to the resolver, for prefix
    values in lower case: on a hit with a non-empty prefix value, the
    token without the prefix at its head, replaced by its trimmed form
    without the two outer quotes when [isQuoted] holds and that trimmed
    form is a double quote, one code unit or more, and a double quote; on
    a hit with the empty prefix value, the token as it is. *)
Definition fed_prefix_word (isQuoted : bool) (arg : Argument) (pool : list string)
  : string :=
  match spec_last_hit arg pool with
  | Some (v, token) =>
      if Str.nonempty v
      then let rest := Str.drop (String.length v) token in
           if isQuoted && Str.test_quoted (Str.trim rest)
           then Str.slice_1_m1 (Str.trim rest)
           else rest
      else token
  | None => EmptyString
  end.

(** A function given to the command is deterministic when what it returns
    does not depend on the world in which it is called. *)
Definition deterministic {R : Type} (f : World -> R * World) : Prop :=
  forall w1 w2 : World, fst (f w1) = fst (f w2).

Definition deterministic_arg (arg : Argument) : Prop :=
  (forall msg processed, deterministic (arg_allow arg msg processed))
  /\ (forall msg processed, deterministic (arg_default arg msg processed))
  /\ (forall word msg processed, deterministic (arg_process arg word msg processed))
  /\ match arg_match arg with
     | Dynamic f => forall msg processed, deterministic (f msg processed)
     | Static _ => True
     end.

Definition deterministic_slot (slot : Slot) : Prop :=
  match slot with
  | Single arg => deterministic_arg arg
  | Group alts => Forall deterministic_arg alts
  | Cancel f => forall msg processed, deterministic (f msg processed)
  end.

Definition deterministic_command (this : Command) : Prop :=
  Forall deterministic_slot (args this)
  /\ match split this with
     | SplitFunction f => forall content msg, deterministic (f content msg)
     | _ => True
     end.

(** A computation that only adds calls at the end of the trace. *)
Definition extends_trace {A : Type} (m : @Eff World A) : Prop :=
  forall s : @Sys World, exists more, trace (snd (m s)) = (trace s ++ more)%list.

(** A computation whose outcome is the same in every state. *)
Definition stateless {A : Type} (m : @Eff World A) : Prop :=
  forall s1 s2 : @Sys World, fst (m s1) = fst (m s2).

End Specification.

(** ** A concrete setting

    A message without content and a world that counts the resolver calls,
    used to run the parser on examples. *)

Module Sample.

Definition send : unit -> value -> nat -> unit * nat :=
  fun _ _ w => (tt, w).

(** An argument that is always allowed, whose default is [false] and whose
    resolver resolves to the word it is given. *)
Definition arg (id : string) (m : ArgumentMatches.t) (p : ArgPrefix)
  : @Argument unit nat :=
  {| arg_id := id;
     arg_match := Static m;
     arg_index := None;
     arg_limit := Infinity;
     arg_prefix := p;
     arg_allow := fun _ _ w => (true, w);
     arg_default := fun _ _ w => (VBool false, w);
     arg_process := fun word _ _ w => (Resolved (VStr word), S w) |}.

Definition start : @Sys nat := {| world := O; trace := [] |}.

Definition verbose : @Argument unit nat :=
  arg "verbose" ArgumentMatches.FLAG (PrefixStr "--verbose").

Definition numbers : @Argument unit nat :=
  arg "numbers" ArgumentMatches.SEPARATE (PrefixStr EmptyString).

Definition color : @Argument unit nat :=
  arg "color" ArgumentMatches.PREFIX (PrefixStr "color:").

Definition loud : @Argument unit nat :=
  arg "color" ArgumentMatches.PREFIX (PrefixStr "Color:").

Definition label : @Argument unit nat :=
  arg "label" ArgumentMatches.PREFIX (PrefixStr "p:").

(** Cancel functions that return the text [aborted] and the number 0. *)
Definition abort : unit -> gmap string value -> nat -> value * nat :=
  fun _ _ w => (VStr "aborted", w).

Definition zero : unit -> gmap string value -> nat -> value * nat :=
  fun _ _ w => (VNum 0, w).

Definition command : @Command unit nat :=
  {| args := [Single numbers; Single verbose];
     split := SplitName ArgumentSplits.PLAIN |}.

(** A word argument read at index 1, in a command that splits with the
    quoted method. *)
Definition second : @Argument unit nat :=
  {| arg_id := "text";
     arg_match := Static ArgumentMatches.WORD;
     arg_index := Some 1;
     arg_limit := Infinity;
     arg_prefix := PrefixStr EmptyString;
     arg_allow := fun _ _ w => (true, w);
     arg_default := fun _ _ w => (VNull, w);
     arg_process := fun word _ _ w => (Resolved (VStr word), S w) |}.

Definition say : @Command unit nat :=
  {| args := [Single second]; split := SplitName ArgumentSplits.QUOTED |}.

(** A cancel function that returns nothing. *)
Definition nothing : unit -> gmap string value -> nat -> value * nat :=
  fun _ _ w => (VUndefined, w).

(** An argument that is never allowed. *)
Definition denied (id : string) (m : ArgumentMatches.t) : @Argument unit nat :=
  {| arg_id := id;
     arg_match := Static m;
     arg_index := None;
     arg_limit := Infinity;
     arg_prefix := PrefixStr EmptyString;
     arg_allow := fun _ _ w => (false, w);
     arg_default := fun _ _ w => (VNull, w);
     arg_process := fun word _ _ w => (Resolved (VStr word), S w) |}.

(** An argument read as a word when the resolvers have been called an
    even number of times, and without any word otherwise. *)
Definition shifting (id : string) : @Argument unit nat :=
  {| arg_id := id;
     arg_match :=
       Dynamic (fun _ _ w =>
                  (if Nat.even w then ArgumentMatches.WORD else ArgumentMatches.NONE, w));
     arg_index := None;
     arg_limit := Infinity;
     arg_prefix := PrefixStr EmptyString;
     arg_allow := fun _ _ w => (true, w);
     arg_default := fun _ _ w => (VNull, w);
     arg_process := fun word _ _ w => (Resolved (VStr word), S w) |}.

(** A command with a word, a flag, a cancel function that lets the parse
    go on, a slot that is skipped, a group whose second argument runs, and
    two arguments with a dynamic match type. *)
Definition survey : @Command unit nat :=
  {| args := [Single (arg "first" ArgumentMatches.WORD (PrefixStr EmptyString));
              Single verbose;
              Cancel nothing;
              Single (denied "never" ArgumentMatches.WORD);
              Group [denied "no" ArgumentMatches.REST; numbers];
              Single (shifting "odd");
              Single (shifting "even")];
     split := SplitName ArgumentSplits.PLAIN |}.

(** A command whose split option is the word [constructor]. *)
Definition built : @Command unit nat :=
  {| args := [Single second]; split := SplitString "constructor" |}.

(** A command that splits on commas. *)
Definition listed : @Command unit nat :=
  {| args := [Single numbers]; split := SplitString "," |}.

(** The double quote as a string, and a text between double quotes. *)
Definition dq : string := String Str.dquote EmptyString.

Definition quote (s : string) : string := dq ++ s ++ dq.

End Sample.

(** ** The match type of a slot *)

Section Resolution.

Context {Message World : Type}.

(** The match type that [process] computes for a slot in a given state:
    the one of the argument of the slot, or of the first allowed argument
    of a group.  There is none for a cancel function and for a slot that
    is skipped because no argument of it is allowed. *)
Definition resolved_match (message : Message) (slot : @Slot Message World)
    (processed : gmap string value) (s : @Sys World) : option ArgumentMatches.t :=
  let of_arg arg s' :=
    match match_type message arg processed s' with
    | (Resolved m, _) => Some m
    | (Rejected _, _) => None
    end in
  match slot with
  | Cancel _ => None
  | Single arg =>
      match allow_call message arg processed s with
      | (Resolved true, s') => of_arg arg s'
      | _ => None
      end
  | Group alts =>
      match find_allowed message alts processed s with
      | (Resolved (Some arg), s') => of_arg arg s'
      | _ => None
      end
  end.

(** The cursor after a slot that resolved to the match type [m]. *)
Definition advance (m : option ArgumentMatches.t) (wordIndex : Z) : Z :=
  match m with
  | Some ArgumentMatches.WORD
  | Some ArgumentMatches.REST
  | Some ArgumentMatches.SEPARATE => wordIndex + 1
  | _ => wordIndex
  end.

(** The match types that the slots resolve to in a run of [process], one
    per slot gone through: each slot is looked at in the state and with
    the mapping that the turns before it left.  The list ends with the
    slot at which the run stops. *)
Fixpoint resolved_modes (send : Message -> value -> World -> unit * World)
    (this : @Command Message World) (content : string) (message : Message)
    (words : list string) (isQuoted : bool) (noPrefixWords : list string)
    (slots : list (@Slot Message World)) (wordIndex : Z)
    (processed : gmap string value) (s : @Sys World)
  : list (option ArgumentMatches.t) :=
  match slots with
  | [] => []
  | slot :: rest =>
      resolved_match message slot processed s
      :: match step send this content message words isQuoted noPrefixWords
                    slot wordIndex processed s with
         | (Resolved (wordIndex', processed'), s') =>
             resolved_modes send this content message words isQuoted
                            noPrefixWords rest wordIndex' processed' s'
         | (Rejected _, _) => []
         end
  end.

(** Whether a slot resolved to WORD, REST or SEPARATE. *)
Definition takes_position (m : option ArgumentMatches.t) : bool :=
  match m with
  | Some ArgumentMatches.WORD
  | Some ArgumentMatches.REST
  | Some ArgumentMatches.SEPARATE => true
  | _ => false
  end.

(** The number of slots of a run that resolved to WORD, REST or
    SEPARATE. *)
Definition positional_slots (modes : list (option ArgumentMatches.t)) : nat :=
  length (List.filter takes_position modes).

(** The resolver of [arg] resolves the tokens one after the other, each
    call starting in the world that the call before it left, to the values
    [vs]; [seen] holds the values resolved before, which the resolver finds
    under [arg.id] in the mapping it is given. *)
Inductive resolves_in_order (arg : @Argument Message World) (msg : Message)
    (processed : gmap string value)
  : list value -> list string -> World -> list value -> World -> Prop :=
| resolves_done (seen : list value) (w : World) :
    resolves_in_order arg msg processed seen [] w [] w
| resolves_next (seen : list value) (token : string) (tokens : list string)
    (w w1 w2 : World) (v : value) (vs : list value) :
    arg_process arg token msg (<[arg_id arg := VArr seen]> processed) w
    = (Resolved v, w1) ->
    resolves_in_order arg msg processed (seen ++ [v])%list tokens w1 vs w2 ->
    resolves_in_order arg msg processed seen (token :: tokens) w (v :: vs) w2.

(** The calls of the resolver for a window of tokens that resolve to
    [vs]: one call per token, in the order of the window, the call for the
    token of index [k] with the first [k] values under [arg.id]. *)
Definition window_calls (arg : @Argument Message World)
    (processed : gmap string value) (tokens : list string) (vs : list value)
  : list event :=
  imap (fun k token =>
          ProcessCall (arg_id arg) token (<[arg_id arg := VArr (take k vs)]> processed))
       tokens.

End Resolution.

(** ** Texts, blanks and quotes *)

Module Text.

(** Whether every code unit of a string satisfies [p]. *)
Fixpoint all (p : ascii -> bool) (s : string) : bool :=
  match s with
  | EmptyString => true
  | String c r => p c && all p r
  end.

(** A string without white space. *)
Definition no_blank (s : string) : bool :=
  all (fun c => negb (Str.is_space c)) s.

(** A string without white space and without double quote. *)
Definition bare (s : string) : bool :=
  all (fun c => negb (Str.is_space c) && negb (Ascii.eqb c Str.dquote)) s.

(** A string without double quote. *)
Definition no_dquote (s : string) : bool :=
  all (fun c => negb (Ascii.eqb c Str.dquote)) s.

(** A string with its white space removed. *)
Fixpoint strip (s : string) : string :=
  match s with
  | EmptyString => EmptyString
  | String c r => if Str.is_space c then strip r else String c (strip r)
  end.

(** A text between two double quotes. *)
Definition quote (inner : string) : string :=
  String Str.dquote (inner ++ String Str.dquote EmptyString).

(** Whether a string starts with white space. *)
Definition starts_blank (s : string) : bool :=
  match s with
  | String c _ => Str.is_space c
  | EmptyString => false
  end.

(** A string in lower case: [toLowerCase] leaves it as it is. *)
Definition is_lower (s : string) : Prop := Str.toLowerCase s = s.

(** A word of the plain split method: a run of one or more code units
    that are not white space, followed by at most one white space. *)
Definition plain_token (t : string) : Prop :=
  exists w, Str.nonempty w = true /\ no_blank w = true
            /\ (t = w \/ exists c, Str.is_space c = true
                                   /\ t = w ++ String c EmptyString).

(** A content without its leading white space and with every run of
    white space reduced to its first code unit; [after_word] tells whether
    the code unit before was not white space. *)
Fixpoint collapse (after_word : bool) (s : string) : string :=
  match s with
  | EmptyString => EmptyString
  | String c r =>
      if Str.is_space c
      then (if after_word then String c (collapse false r) else collapse false r)
      else String c (collapse true r)
  end.

(** The form of a token under which PREFIX and FLAG look at it. *)
Definition normal (w : string) : string := Str.toLowerCase (Str.trim w).

End Text.

(** * Properties *)

Section Properties.

Context {Message World : Type}.
Variable send : Message -> value -> World -> unit * World.

Abbreviation Argument := (@Argument Message World).
Abbreviation Slot := (@Slot Message World).
Abbreviation Command := (@Command Message World).
Abbreviation Sys := (@Sys World).
Abbreviation Eff := (@Eff World).

(** ** The trace of a parse *)

Lemma extends_ret {A} (a : A) : extends_trace (World := World) (ret a).
Proof. intros s. exists []. simpl. now rewrite app_nil_r. Qed.

Lemma extends_throw {A} (e : thrown) : extends_trace (@throw World A e).
Proof. intros s. exists []. simpl. now rewrite app_nil_r. Qed.

Lemma extends_bind {A B} (m : Eff A) (k : A -> Eff B) :
  extends_trace m -> (forall a, extends_trace (k a)) -> extends_trace (bind m k).
Proof.
  intros Hm Hk s. unfold bind. destruct (Hm s) as [more1 H1].
  destruct (m s) as [[a|e] s1]; simpl in H1.
  - destruct (Hk a s1) as [more2 H2]. exists (more1 ++ more2)%list.
    now rewrite H2, H1, app_assoc.
  - exists more1. exact H1.
Qed.

Lemma extends_call {A} (e : event) (f : World -> A * World) :
  extends_trace (call e f).
Proof. intros s. unfold call. destruct (f (world s)). now exists [e]. Qed.

Lemma extends_attempt {A} (e : event) (f : World -> Outcome A * World) :
  extends_trace (attempt e f).
Proof. intros s. unfold attempt. destruct (f (world s)). now exists [e]. Qed.

Lemma extends_process_bind (arg : Argument) word msg processed :
  extends_trace (process_bind arg word msg processed).
Proof.
  apply extends_bind; [apply extends_attempt|]. intros v. apply extends_ret.
Qed.

Lemma extends_separate_loop (arg : Argument) msg tokens res processed :
  extends_trace (separate_loop arg msg tokens res processed).
Proof.
  revert res processed.
  induction tokens as [|token tokens IH]; intros res processed; simpl.
  - apply extends_ret.
  - apply extends_bind; [apply extends_attempt|]. intros v. apply IH.
Qed.

Lemma extends_parseFuncs (this : Command) content words isQuoted noPrefixWords
    matchType parseFunc (arg : Argument) index msg processed :
  parseFuncs this content words isQuoted noPrefixWords matchType = Some parseFunc ->
  extends_trace (parseFunc arg index msg processed).
Proof.
  intros Hpf.
  destruct matchType; simpl in Hpf; try discriminate; injection Hpf as <-;
    try apply extends_process_bind.
  - unfold parseSEPARATE. destruct (slice _ _ _); [apply extends_process_bind|].
    apply extends_bind; [apply extends_separate_loop|].
    intros [res p]. apply extends_ret.
  - unfold parseFLAG. apply extends_bind; [apply extends_call|].
    intros d. apply extends_ret.
Qed.

Lemma extends_evaluate (this : Command) content message words isQuoted
    noPrefixWords (arg : Argument) wordIndex processed :
  extends_trace (evaluate this content message words isQuoted noPrefixWords
                          arg wordIndex processed).
Proof.
  unfold evaluate. apply extends_bind.
  - unfold match_type. destruct (arg_match arg); [apply extends_ret|apply extends_call].
  - intros m.
    destruct (parseFuncs this content words isQuoted noPrefixWords m) eqn:Hpf;
      [|apply extends_throw].
    apply extends_bind; [eapply extends_parseFuncs, Hpf|].
    intros [res p]. apply extends_ret.
Qed.

Lemma extends_find_allowed message (alts : list Argument) processed :
  extends_trace (find_allowed message alts processed).
Proof.
  induction alts as [|a alts IH]; simpl; [apply extends_ret|].
  apply extends_bind; [apply extends_call|].
  intros [|]; [apply extends_ret|exact IH].
Qed.

Lemma extends_step (this : Command) content message words isQuoted noPrefixWords
    (slot : Slot) wordIndex processed :
  extends_trace (step send this content message words isQuoted noPrefixWords
                      slot wordIndex processed).
Proof.
  destruct slot as [arg|alts|f]; simpl.
  - apply extends_bind; [apply extends_call|].
    intros [|]; [apply extends_evaluate|apply extends_ret].
  - apply extends_bind; [apply extends_find_allowed|].
    intros [arg|]; [apply extends_evaluate|apply extends_ret].
  - unfold cancel_slot. apply extends_bind; [apply extends_call|].
    intros cancel. destruct (_ && _); [|apply extends_ret].
    apply extends_bind; [|intros; apply extends_throw].
    destruct (_ && _); [apply extends_call|apply extends_ret].
Qed.

Lemma extends_process (this : Command) content message words isQuoted noPrefixWords
    (slots : list Slot) wordIndex processed :
  extends_trace (process send this content message words isQuoted noPrefixWords
                         slots wordIndex processed).
Proof.
  revert wordIndex processed.
  induction slots as [|slot slots IH]; intros wordIndex processed; simpl.
  - apply extends_ret.
  - apply extends_bind; [apply extends_step|]. intros [wi p]. apply IH.
Qed.

Lemma splitText_trace (this : Command) content message (s : Sys) :
  trace (snd (_splitText this content message s))
  = (trace s ++ [SplitText content])%list.
Proof.
  unfold _splitText. destruct (split this) as [name|f|f]; try reflexivity.
  - destruct (property name) as [[own|p]|]; reflexivity.
  - unfold bind, call. destruct (f content message (world s)). reflexivity.
Qed.

(** ** An empty argument list *)

(** C7. With no argument slot, [parse] resolves to the empty mapping and
    leaves the world and the trace as they were: no call is made, so
    neither [_splitText] nor a custom split function runs.  With a slot,
    the call of [_splitText] is the first thing that [parse] adds to the
    trace. *)
Theorem parse_no_args :
  forall (this : Command) (content : string) (message : Message) (s : Sys),
    (args this = [] -> parse send this content message s = (Resolved ∅, s))
    /\ (args this <> [] ->
        exists rest,
          trace (snd (parse send this content message s))
          = (trace s ++ SplitText content :: rest)%list).
Proof.
  intros this content message s. unfold parse. split.
  - intros ->. reflexivity.
  - intros Hne. destruct (args this) as [|slot slots]; [congruence|].
    unfold bind. pose proof (splitText_trace this content message s) as Hsp.
    destruct (_splitText this content message s) as [[[ws|]|e] s1]; simpl in Hsp;
      [|exists []; exact Hsp|exists []; exact Hsp].
    + destruct (extends_process this content message (items ws) (quoting this ws)
                  (noPrefix (_getPrefixes this) (items ws)) (slot :: slots) 0 ∅ s1)
        as [more Hmore].
      destruct (process _ _ _ _ _ _ _ _ _ _ s1) as [[[wi p]|e] s2];
        simpl in *; exists more; rewrite Hmore, Hsp, <- app_assoc; reflexivity.
Qed.

(** ** Prefix entries and the words without prefixes *)

Lemma fold_left_snoc_map {A B} (f : A -> B) (l : list A) (acc : list B) :
  fold_left (fun acc x => (acc ++ [f x])%list) l acc = (acc ++ map f l)%list.
Proof.
  revert acc. induction l as [|x l IH]; intros acc; simpl.
  - now rewrite app_nil_r.
  - rewrite IH, <- app_assoc. reflexivity.
Qed.

Lemma pushPrefix_spec (prefixes : list PrefixEntry) (arg : Argument) :
  pushPrefix prefixes arg = (prefixes ++ spec_descriptors_of arg)%list.
Proof.
  unfold pushPrefix, spec_descriptors_of, is_static.
  destruct (arg_match arg) as [m|f]; simpl.
  - destruct m; simpl; try (now rewrite app_nil_r);
      destruct (arg_prefix arg) as [p|ps]; simpl;
      try reflexivity; apply fold_left_snoc_map.
  - now rewrite app_nil_r.
Qed.

Lemma fold_pushPrefix_spec (alts : list Argument) (prefixes : list PrefixEntry) :
  fold_left pushPrefix alts prefixes
  = (prefixes ++ flat_map spec_descriptors_of alts)%list.
Proof.
  revert prefixes. induction alts as [|a alts IH]; intros prefixes; simpl.
  - now rewrite app_nil_r.
  - rewrite IH, pushPrefix_spec, <- app_assoc. reflexivity.
Qed.

Lemma getPrefixes_from (slots : list Slot) (prefixes : list PrefixEntry) :
  fold_left
    (fun prefixes slot =>
       match slot with
       | Group alts => fold_left pushPrefix alts prefixes
       | Single arg => pushPrefix prefixes arg
       | Cancel _ => prefixes
       end) slots prefixes
  = (prefixes ++ flat_map spec_descriptors_of (flat_args slots))%list.
Proof.
  revert prefixes. induction slots as [|slot slots IH]; intros prefixes; simpl.
  - now rewrite app_nil_r.
  - rewrite IH. destruct slot as [arg|alts|f]; simpl.
    + rewrite pushPrefix_spec, <- app_assoc. reflexivity.
    + rewrite fold_pushPrefix_spec, flat_map_app, <- app_assoc. reflexivity.
    + reflexivity.
Qed.

Lemma existsb_pointwise {A} (f g : A -> bool) (l : list A) :
  (forall x, f x = g x) -> existsb f l = existsb g l.
Proof.
  intros E. induction l as [|x l IH]; simpl; [reflexivity|].
  now rewrite E, IH.
Qed.

Lemma keep_word_spec (this : Command) (w : string) :
  keep_word (spec_descriptors this) w = negb (spec_is_marker this w).
Proof.
  unfold keep_word, spec_is_marker. f_equal.
  apply existsb_pointwise. intros d. unfold hits.
  destruct (entry_flag d); reflexivity.
Qed.

(** C6. [_getPrefixes] collects, in the order of the argument list with
    the alternative groups flattened, one entry in lower case per prefix
    value of every argument whose match type is PREFIX or FLAG, and
    [noPrefixWords] is the token pool without the tokens that, trimmed and
    in lower case, start with the value of a non-flag entry or equal the
    value of a flag entry; the other tokens stay, in their order. *)
Theorem filtered_pool_spec :
  forall (this : Command) (words : list string),
    _getPrefixes this = spec_descriptors this
    /\ noPrefix (_getPrefixes this) words = spec_filtered_pool this words.
Proof.
  intros this words.
  assert (E : _getPrefixes this = spec_descriptors this).
  { unfold _getPrefixes, spec_descriptors. now rewrite getPrefixes_from. }
  split; [exact E|].
  rewrite E. unfold noPrefix, spec_filtered_pool.
  apply filter_ext. intros w. apply keep_word_spec.
Qed.

(** ** FLAG *)

Lemma flag_inner_spec (word : string) (ps : list string) (flagFound : bool) :
  flag_inner word ps flagFound
  = existsb (fun v => String.eqb word (Str.toLowerCase v)) ps || flagFound.
Proof.
  induction ps as [|p ps IH]; simpl; [reflexivity|].
  destruct (String.eqb word (Str.toLowerCase p)); simpl; [reflexivity|exact IH].
Qed.

Lemma flag_loop_spec (arg : Argument) (ws : list string) (flagFound : bool) :
  flag_loop arg ws flagFound = spec_flag_found arg ws || flagFound.
Proof.
  unfold spec_flag_found. revert flagFound.
  induction ws as [|w ws IH]; intros flagFound; simpl; [reflexivity|].
  destruct (arg_prefix arg) as [p|ps] eqn:E; simpl.
  - destruct (String.eqb _ _); simpl; [reflexivity|apply IH].
  - rewrite IH, flag_inner_spec.
    destruct (existsb _ ps), (existsb _ ws), flagFound; reflexivity.
Qed.

Lemma existsb_rev' {A} (f : A -> bool) (l : list A) :
  existsb f (rev l) = existsb f l.
Proof.
  induction l as [|x l IH]; simpl; [reflexivity|].
  rewrite existsb_app, IH. simpl. rewrite orb_false_r. apply orb_comm.
Qed.

(** C5. The FLAG function finds the flag when some token of the unfiltered
    pool, trimmed and in lower case, equals a prefix value of the argument
    in lower case.  Its evaluator calls [arg.default] once, takes [inverse]
    as the negation of the truth value of what it returns, and resolves to
    [found] when [inverse] holds and to its negation otherwise, leaving
    [processed] as it was: a default of [false] gives [found], a default
    of [true] gives the negation of [found]. *)
Theorem flag_spec :
  forall (words : list string) (arg : Argument) (index : Z) (msg : Message)
         (processed : gmap string value) (s : Sys) (d : value) (w : World),
    arg_default arg msg processed (world s) = (d, w) ->
    let found := spec_flag_found arg words in
    let s' := {| world := w;
                 trace := (trace s ++ [DefaultCall (arg_id arg) processed])%list |} in
    parseFLAG words arg index msg processed s
    = (Resolved (VBool (if negb (truthy d) then found else negb found), processed), s')
    /\ (d = VBool false ->
        parseFLAG words arg index msg processed s = (Resolved (VBool found, processed), s'))
    /\ (d = VBool true ->
        parseFLAG words arg index msg processed s
        = (Resolved (VBool (negb found), processed), s')).
Proof.
  intros words arg index msg processed s d w Hd found s'.
  assert (E : parseFLAG words arg index msg processed s
              = (Resolved (VBool (if negb (truthy d) then found else negb found),
                           processed), s')).
  { unfold parseFLAG, bind, call, ret. rewrite Hd.
    rewrite flag_loop_spec, orb_false_r.
    unfold spec_flag_found. rewrite existsb_rev'. reflexivity. }
  split; [exact E|].
  split; intros ->; exact E.
Qed.

(** ** Cancel functions *)

Section Cancellation.

Variables (this : Command) (content : string) (message : Message).
Variables (words : list string) (isQuoted : bool) (noPrefixWords : list string).

Local Abbreviation run := (process send this content message words isQuoted noPrefixWords).

Lemma cancel_run (f : Message -> gmap string value -> World -> value * World)
    (rest : list Slot) (wordIndex : Z) (processed : gmap string value) (s : Sys)
    (cancel : value) (w : World) :
  f message processed (world s) = (cancel, w) ->
  run (Cancel f :: rest) wordIndex processed s
  = let s1 := {| world := w; trace := (trace s ++ [CancelCall processed])%list |} in
    if negb (nullish cancel) && negb (is_bool false cancel)
    then if truthy cancel && negb (is_bool true cancel)
         then (Rejected COMMAND_CANCELLED,
               {| world := snd (send message cancel w);
                  trace := ((trace s ++ [CancelCall processed]) ++ [Send cancel])%list |})
         else (Rejected COMMAND_CANCELLED, s1)
    else run rest wordIndex processed s1.
Proof.
  intros Hf. simpl.
  unfold bind at 1. unfold cancel_slot, bind, call. rewrite Hf. simpl.
  destruct (negb (nullish cancel) && negb (is_bool false cancel)); [|reflexivity].
  destruct (truthy cancel && negb (is_bool true cancel)); simpl; [|reflexivity].
  destruct (send message cancel w); reflexivity.
Qed.

(** C1. When [process] reaches a cancel function, it calls it once.  If
    the function returns [undefined], [null] or [false], [process] goes on
    with the next slot, with the same [wordIndex] and the same [processed].
    If it returns [true], [parse] rejects with [COMMAND_CANCELLED] and
    nothing is sent.  If it returns another truthy value, that value is
    sent once to the channel of the message and [parse] rejects with
    [COMMAND_CANCELLED].  When [parse] rejects no later slot is looked at:
    the trace ends with the call of the cancel function or with the
    sending. *)
Theorem cancel_probe_spec :
  forall (f : Message -> gmap string value -> World -> value * World)
         (rest : list Slot) (wordIndex : Z) (processed : gmap string value)
         (s : Sys) (cancel : value) (w : World),
    f message processed (world s) = (cancel, w) ->
    let s1 := {| world := w; trace := (trace s ++ [CancelCall processed])%list |} in
    (cancel = VUndefined \/ cancel = VNull \/ cancel = VBool false ->
     run (Cancel f :: rest) wordIndex processed s = run rest wordIndex processed s1)
    /\ (cancel = VBool true ->
        run (Cancel f :: rest) wordIndex processed s = (Rejected COMMAND_CANCELLED, s1))
    /\ (truthy cancel = true -> cancel <> VBool true ->
        run (Cancel f :: rest) wordIndex processed s
        = (Rejected COMMAND_CANCELLED,
           {| world := snd (send message cancel w);
              trace := (trace s ++ [CancelCall processed; Send cancel])%list |})).
Proof.
  intros f rest wordIndex processed s cancel w Hf s1.
  rewrite (cancel_run f rest wordIndex processed s cancel w Hf). fold s1.
  split; [|split].
  - intros [-> | [-> | ->]]; reflexivity.
  - intros ->. reflexivity.
  - intros Ht Hne.
    assert (Hn : nullish cancel = false) by (destruct cancel; simpl in *; congruence).
    assert (Hf' : is_bool false cancel = false)
      by (destruct cancel as [| |[|]| | | | |]; simpl in *; congruence).
    assert (Hb : is_bool true cancel = false)
      by (destruct cancel as [| |[|]| | | | |]; simpl in *; congruence).
    rewrite Hn, Hf', Ht, Hb. simpl. rewrite <- app_assoc. reflexivity.
Qed.

(** C9. Whatever a cancel function returns, unless it is [undefined],
    [null] or [false], [parse] rejects with [COMMAND_CANCELLED], also when
    the value is falsy, as [0], [NaN] and the empty string are.  The value
    is sent only when it is truthy and not [true]; after a falsy value
    nothing is sent and the trace ends with the call of the cancel
    function. *)
Theorem cancel_falsy_spec :
  forall (f : Message -> gmap string value -> World -> value * World)
         (rest : list Slot) (wordIndex : Z) (processed : gmap string value)
         (s : Sys) (cancel : value) (w : World),
    f message processed (world s) = (cancel, w) ->
    cancel <> VUndefined -> cancel <> VNull -> cancel <> VBool false ->
    fst (run (Cancel f :: rest) wordIndex processed s) = Rejected COMMAND_CANCELLED
    /\ trace (snd (run (Cancel f :: rest) wordIndex processed s))
       = (trace s ++ CancelCall processed
            :: (if truthy cancel && negb (is_bool true cancel)
                then [Send cancel] else []))%list
    /\ (truthy cancel = false ->
        run (Cancel f :: rest) wordIndex processed s
        = (Rejected COMMAND_CANCELLED,
           {| world := w; trace := (trace s ++ [CancelCall processed])%list |})).
Proof.
  intros f rest wordIndex processed s cancel w Hf Hu Hn Hfalse.
  rewrite (cancel_run f rest wordIndex processed s cancel w Hf).
  assert (H1 : nullish cancel = false) by (destruct cancel; simpl; congruence).
  assert (H2 : is_bool false cancel = false)
    by (destruct cancel as [| |[|]| | | | |]; simpl; congruence).
  rewrite H1, H2. simpl.
  destruct (truthy cancel && negb (is_bool true cancel)) eqn:E; simpl.
  - split; [reflexivity|]. split; [now rewrite <- app_assoc|].
    intros Ht. rewrite Ht in E. discriminate.
  - repeat split; reflexivity.
Qed.

End Cancellation.

(** ** The positional cursor *)

Section Cursor.

Variables (this : Command) (content : string) (message : Message).
Variables (words : list string) (isQuoted : bool) (noPrefixWords : list string).

Local Abbreviation step' := (step send this content message words isQuoted noPrefixWords).
Local Abbreviation process' := (process send this content message words isQuoted noPrefixWords).
Local Abbreviation evaluate' := (evaluate this content message words isQuoted noPrefixWords).

Lemma match_type_resolves (arg : Argument) (processed : gmap string value) (s : Sys) :
  exists m s1, match_type message arg processed s = (Resolved m, s1).
Proof.
  unfold match_type. destruct (arg_match arg) as [m|f].
  - exists m, s. reflexivity.
  - unfold call. destruct (f message processed (world s)) as [m w]. eauto.
Qed.

Lemma evaluate_cursor (arg : Argument) (wordIndex : Z)
    (processed : gmap string value) (s : Sys) wordIndex' processed' s' :
  evaluate' arg wordIndex processed s = (Resolved (wordIndex', processed'), s') ->
  exists m s1,
    match_type message arg processed s = (Resolved m, s1)
    /\ wordIndex' = advance (Some m) wordIndex.
Proof.
  unfold evaluate, bind.
  destruct (match_type_resolves arg processed s) as (m & s1 & Hm). rewrite Hm.
  intros H. exists m, s1. split; [reflexivity|].
  destruct (parseFuncs this content words isQuoted noPrefixWords m) as [pf|] eqn:Hpf;
    [|discriminate].
  destruct (pf arg wordIndex message processed s1) as [[[res p1]|e] s2];
    [|discriminate].
  unfold ret in H. injection H as <- _ _.
  destruct m; reflexivity.
Qed.

Lemma step_cursor (slot : Slot) (wordIndex : Z) (processed : gmap string value)
    (s : Sys) wordIndex' processed' s' :
  step' slot wordIndex processed s = (Resolved (wordIndex', processed'), s') ->
  wordIndex' = advance (resolved_match message slot processed s) wordIndex.
Proof.
  destruct slot as [arg|alts|f]; simpl.
  - unfold bind. destruct (allow_call message arg processed s) as [[[|]|e] s1];
      try discriminate.
    + intros H. apply evaluate_cursor in H as (m & s2 & Hm & ->).
      rewrite Hm. reflexivity.
    + unfold ret. intros H. injection H as <- _ _. reflexivity.
  - unfold bind.
    destruct (find_allowed message alts processed s) as [[[arg|]|e] s1];
      try discriminate.
    + intros H. apply evaluate_cursor in H as (m & s2 & Hm & ->).
      rewrite Hm. reflexivity.
    + unfold ret. intros H. injection H as <- _ _. reflexivity.
  - unfold cancel_slot, bind, call.
    destruct (f message processed (world s)) as [cancel w].
    destruct (negb (nullish cancel) && negb (is_bool false cancel)).
    + destruct (truthy cancel && negb (is_bool true cancel)); simpl;
        [destruct (send message cancel w)|]; discriminate.
    + unfold ret. intros H. injection H as <- _ _. reflexivity.
Qed.

Lemma advance_bounds (m : option ArgumentMatches.t) (wordIndex : Z) :
  wordIndex <= advance m wordIndex <= wordIndex + 1.
Proof. destruct m as [[]|]; simpl; lia. Qed.

Lemma process_cursor (slots : list Slot) (wordIndex : Z)
    (processed : gmap string value) (s : Sys) wordIndex' processed' s' :
  process' slots wordIndex processed s = (Resolved (wordIndex', processed'), s') ->
  wordIndex <= wordIndex' <= wordIndex + Z.of_nat (length slots).
Proof.
  revert wordIndex processed s.
  induction slots as [|slot slots IH]; intros wordIndex processed s; simpl.
  - unfold ret. intros H. injection H as <- _ _. lia.
  - unfold bind.
    destruct (step' slot wordIndex processed s) as [[[wi1 p1]|e] s1] eqn:Hs;
      [|discriminate].
    intros H. apply IH in H. apply step_cursor in Hs.
    pose proof (advance_bounds (resolved_match message slot processed s) wordIndex).
    lia.
Qed.

Lemma advance_takes_position (m : option ArgumentMatches.t) (wordIndex : Z) :
  advance m wordIndex
  = wordIndex + Z.of_nat (positional_slots [m]).
Proof. destruct m as [[]|]; unfold positional_slots; simpl; lia. Qed.

Lemma positional_slots_cons (m : option ArgumentMatches.t)
    (modes : list (option ArgumentMatches.t)) :
  positional_slots (m :: modes)
  = (positional_slots [m] + positional_slots modes)%nat.
Proof. unfold positional_slots. simpl. destruct (takes_position m); reflexivity. Qed.

Lemma process_count (slots : list Slot) (wordIndex : Z)
    (processed : gmap string value) (s : Sys) wordIndex' processed' s' :
  process' slots wordIndex processed s = (Resolved (wordIndex', processed'), s') ->
  wordIndex'
  = wordIndex
    + Z.of_nat (positional_slots
                  (resolved_modes send this content message words isQuoted
                                  noPrefixWords slots wordIndex processed s)).
Proof.
  revert wordIndex processed s.
  induction slots as [|slot slots IH]; intros wordIndex processed s; simpl.
  - unfold ret. intros H. injection H as <- _ _. unfold positional_slots. simpl. lia.
  - unfold bind.
    destruct (step' slot wordIndex processed s) as [[[wi1 p1]|e] s1] eqn:Hs;
      [|discriminate].
    intros H. apply IH in H. apply step_cursor in Hs.
    rewrite positional_slots_cons, Nat2Z.inj_add.
    rewrite advance_takes_position in Hs. lia.
Qed.

Lemma process_prefix (before after : list Slot) (wordIndex : Z)
    (processed : gmap string value) (s : Sys) wordIndex' processed' s' :
  process' before wordIndex processed s = (Resolved (wordIndex', processed'), s') ->
  process' (before ++ after) wordIndex processed s
  = process' after wordIndex' processed' s'.
Proof.
  revert wordIndex processed s.
  induction before as [|slot before IH]; intros wordIndex processed s; simpl.
  - unfold ret. intros H. injection H as <- <- <-. reflexivity.
  - unfold bind.
    destruct (step' slot wordIndex processed s) as [[[wi1 p1]|e] s1];
      [|discriminate].
    apply IH.
Qed.

End Cursor.

(** C4. A call of [parse] on a command with arguments, once
    [_splitText] has given the words, runs [process] on the whole
    argument list from [wordIndex] 0 and the empty mapping.  When
    [process] has gone through a list of slots, [wordIndex] is its
    value at the start plus the number of these slots that resolved to
    the match type WORD, REST or SEPARATE, each looked at in the state in
    which its turn came, whatever the number of words taken; the slots
    that follow are processed from that value.  In one turn [wordIndex]
    grows by 1 for WORD, REST and SEPARATE and stays as it was for the
    match types PREFIX, FLAG, TEXT, CONTENT and NONE, for a skipped slot
    and for a cancel function.  So [wordIndex] never decreases and grows
    by at most one per slot. *)
Theorem cursor_spec :
  forall (this : Command) (content : string) (message : Message),
    (forall s ws s1,
        args this <> [] ->
        _splitText this content message s = (Resolved (Array ws), s1) ->
        parse send this content message s
        = (let (r, s') :=
             process send this content message (items ws) (quoting this ws)
                     (noPrefix (_getPrefixes this) (items ws)) (args this) 0 ∅ s1 in
           (match r with
            | Resolved (_, processed) => Resolved processed
            | Rejected e => Rejected e
            end, s')))
    /\ (forall words isQuoted noPrefixWords before after wordIndex processed s
               wordIndex' processed' s',
           process send this content message words isQuoted noPrefixWords
                   before wordIndex processed s
           = (Resolved (wordIndex', processed'), s') ->
           wordIndex'
           = wordIndex
             + Z.of_nat (positional_slots
                           (resolved_modes send this content message words isQuoted
                                           noPrefixWords before wordIndex processed s))
           /\ process send this content message words isQuoted noPrefixWords
                      (before ++ after) wordIndex processed s
              = process send this content message words isQuoted noPrefixWords
                        after wordIndex' processed' s')
    /\ (forall words isQuoted noPrefixWords slot wordIndex processed s
               wordIndex' processed' s',
           step send this content message words isQuoted noPrefixWords
                slot wordIndex processed s
           = (Resolved (wordIndex', processed'), s') ->
           wordIndex' = advance (resolved_match message slot processed s) wordIndex)
    /\ (forall words isQuoted noPrefixWords slots wordIndex processed s
               wordIndex' processed' s',
           process send this content message words isQuoted noPrefixWords
                   slots wordIndex processed s
           = (Resolved (wordIndex', processed'), s') ->
           wordIndex <= wordIndex' <= wordIndex + Z.of_nat (length slots)).
Proof.
  intros this content message. split; [|split; [|split]].
  - intros s ws s1 Hargs Hsp. unfold parse.
    destruct (args this) as [|slot slots] eqn:E; [congruence|].
    unfold bind. rewrite Hsp.
    destruct (process _ _ _ _ _ _ _ _ _ _ s1) as [[[wi p]|e] s2]; reflexivity.
  - intros. split.
    + eapply process_count; eassumption.
    + eapply process_prefix; eassumption.
  - intros. eapply step_cursor; eassumption.
  - intros. eapply process_cursor; eassumption.
Qed.

(** ** SEPARATE *)

Section Separate.

Variables (arg : Argument) (msg : Message).

Lemma process_call_run (word : string) (processed : gmap string value) (s : Sys) :
  process_call arg word msg processed s
  = (fst (arg_process arg word msg processed (world s)),
     {| world := snd (arg_process arg word msg processed (world s));
        trace := (trace s ++ [ProcessCall (arg_id arg) word processed])%list |}).
Proof.
  unfold process_call, attempt.
  destruct (arg_process arg word msg processed (world s)); reflexivity.
Qed.

(** The loop on tokens that resolve. *)
Lemma separate_loop_resolves (processed : gmap string value)
    (tokens : list string) (seen : list value) (s : Sys)
    (vs : list value) (w' : World) :
  resolves_in_order arg msg processed seen tokens (world s) vs w' ->
  separate_loop arg msg tokens seen (<[arg_id arg := VArr seen]> processed) s
  = (Resolved ((seen ++ vs)%list, <[arg_id arg := VArr (seen ++ vs)]> processed),
     {| world := w';
        trace := (trace s
                  ++ imap (fun k token =>
                             ProcessCall (arg_id arg) token
                               (<[arg_id arg := VArr (seen ++ take k vs)]> processed))
                          tokens)%list |})
  /\ length vs = length tokens.
Proof.
  revert seen s vs.
  induction tokens as [|token tokens IH]; intros seen s vs H;
    inversion H as [|? ? ? ? w1 w2 v vs' Hcall Hrest]; subst; simpl.
  - rewrite !app_nil_r. destruct s; auto.
  - unfold bind. rewrite process_call_run, Hcall. simpl.
    rewrite insert_insert_eq.
    apply (IH _ {| world := w1;
                   trace := (trace s ++ [ProcessCall (arg_id arg) token
                               (<[arg_id arg := VArr seen]> processed)])%list |})
      in Hrest as [Hrest ->].
    rewrite Hrest. simpl. split; [|reflexivity].
    erewrite imap_ext
      by (intros k token' _; simpl; rewrite <- app_assoc; reflexivity).
    rewrite <- !app_assoc, app_nil_r. reflexivity.
Qed.

(** The loop on a token that the resolver rejects, after tokens that
    resolve. *)
Lemma separate_loop_rejects (processed : gmap string value)
    (pre : list string) (token : string) (post : list string)
    (seen : list value) (s : Sys) (vs : list value) (w1 w2 : World) (e : thrown) :
  resolves_in_order arg msg processed seen pre (world s) vs w1 ->
  arg_process arg token msg (<[arg_id arg := VArr (seen ++ vs)]> processed) w1
  = (Rejected e, w2) ->
  separate_loop arg msg (pre ++ token :: post) seen
                (<[arg_id arg := VArr seen]> processed) s
  = (Rejected e,
     {| world := w2;
        trace := (trace s
                  ++ imap (fun k token =>
                             ProcessCall (arg_id arg) token
                               (<[arg_id arg := VArr (seen ++ take k vs)]> processed))
                          pre
                  ++ [ProcessCall (arg_id arg) token
                        (<[arg_id arg := VArr (seen ++ vs)]> processed)])%list |}).
Proof.
  revert seen s vs.
  induction pre as [|t pre IH]; intros seen s vs H Hrej;
    inversion H as [|? ? ? ? w3 w4 v vs' Hcall Hrest]; subst; simpl.
  - rewrite app_nil_r in Hrej. unfold bind.
    rewrite process_call_run, Hrej, app_nil_r. reflexivity.
  - unfold bind. rewrite process_call_run, Hcall. simpl.
    rewrite insert_insert_eq.
    rewrite (IH (seen ++ [v])%list
                {| world := w3;
                   trace := (trace s ++ [ProcessCall (arg_id arg) t
                               (<[arg_id arg := VArr seen]> processed)])%list |}
                vs' Hrest)
      by (rewrite <- app_assoc; exact Hrej).
    simpl.
    erewrite imap_ext
      by (intros k token' _; simpl; rewrite <- app_assoc; reflexivity).
    rewrite <- !app_assoc, app_nil_r. reflexivity.
Qed.

(** The call for the token of index [k], once the tokens before it have
    resolved. *)
Lemma separate_loop_call (processed : gmap string value)
    (tokens : list string) (seen : list value) (s : Sys)
    (k : nat) (token : string) (vs : list value) (w1 : World) :
  tokens !! k = Some token ->
  resolves_in_order arg msg processed seen (take k tokens) (world s) vs w1 ->
  trace (snd (separate_loop arg msg tokens seen
                (<[arg_id arg := VArr seen]> processed) s))
    !! (length (trace s) + k)%nat
  = Some (ProcessCall (arg_id arg) token
            (<[arg_id arg := VArr (seen ++ vs)]> processed)).
Proof.
  revert seen s k vs.
  induction tokens as [|t tokens IH]; intros seen s k vs Hk H; [discriminate|].
  simpl. unfold bind. rewrite process_call_run.
  destruct k as [|k]; simpl in Hk, H.
  - injection Hk as ->. inversion H; subst. rewrite app_nil_r.
    destruct (arg_process arg token msg _ (world s)) as [[v|e] w]; simpl.
    + edestruct (extends_separate_loop arg msg) as [more ->]. simpl.
      rewrite Nat.add_0_r, <- app_assoc. simpl.
      now rewrite lookup_app_r, Nat.sub_diag by lia.
    + now rewrite Nat.add_0_r, lookup_app_r, Nat.sub_diag by lia.
  - inversion H as [|? ? ? ? w2 w3 v vs' Hcall Hrest]; subst.
    rewrite Hcall. simpl. rewrite insert_insert_eq.
    apply (IH _ {| world := w2;
                   trace := (trace s ++ [ProcessCall (arg_id arg) t
                               (<[arg_id arg := VArr seen]> processed)])%list |}
              _ _ Hk) in Hrest.
    simpl in Hrest. rewrite length_app in Hrest. simpl in Hrest.
    replace (length (trace s) + S k)%nat with (length (trace s) + 1 + k)%nat by lia.
    rewrite <- app_assoc in Hrest. simpl in Hrest. exact Hrest.
Qed.

End Separate.

(** C3. For an argument whose match type is SEPARATE, let the window be
    the slice of [noPrefixWords] from the index of the argument.  If the
    window is empty the resolver is called once, with the empty string.
    Otherwise, when the resolver resolves the tokens of the window, it is
    called once per token, in the order of the window, each call starting
    in the world left by the call before it, and the value stored for the
    argument is the array of the values resolved, in that order.  When
    the resolver rejects a token, after the tokens before it have
    resolved, the calls stop there and the rejection is the outcome. *)
Theorem separate_spec :
  forall (this : Command) (content : string) (message : Message)
         (words : list string) (isQuoted : bool) (noPrefixWords : list string)
         (arg : Argument) (wordIndex : Z) (processed : gmap string value) (s : Sys),
    arg_match arg = Static ArgumentMatches.SEPARATE ->
    let index := index_or arg wordIndex in
    let window := slice index (add_limit index (arg_limit arg)) noPrefixWords in
    (window = [] ->
     evaluate this content message words isQuoted noPrefixWords arg wordIndex processed s
     = (match fst (arg_process arg EmptyString message processed (world s)) with
        | Resolved v => Resolved (wordIndex + 1, <[arg_id arg := v]> processed)
        | Rejected e => Rejected e
        end,
        {| world := snd (arg_process arg EmptyString message processed (world s));
           trace := (trace s ++ [ProcessCall (arg_id arg) EmptyString processed])%list |}))
    /\ (window <> [] ->
        forall (vs : list value) (w' : World),
          resolves_in_order arg message processed [] window (world s) vs w' ->
          evaluate this content message words isQuoted noPrefixWords arg wordIndex processed s
          = (Resolved (wordIndex + 1, <[arg_id arg := VArr vs]> processed),
             {| world := w';
                trace := (trace s ++ window_calls arg processed window vs)%list |})
          /\ length vs = length window)
    /\ (forall (pre : list string) (token : string) (post : list string)
               (vs : list value) (w1 w2 : World) (e : thrown),
           window = (pre ++ token :: post)%list ->
           resolves_in_order arg message processed [] pre (world s) vs w1 ->
           arg_process arg token message (<[arg_id arg := VArr vs]> processed) w1
           = (Rejected e, w2) ->
           evaluate this content message words isQuoted noPrefixWords arg wordIndex processed s
           = (Rejected e,
              {| world := w2;
                 trace := (trace s ++ window_calls arg processed pre vs
                           ++ [ProcessCall (arg_id arg) token
                                 (<[arg_id arg := VArr vs]> processed)])%list |})).
Proof.
  intros this content message words isQuoted noPrefixWords arg wordIndex processed s
         Hm index window.
  assert (E : evaluate this content message words isQuoted noPrefixWords
                       arg wordIndex processed s
              = bind (parseSEPARATE noPrefixWords arg wordIndex message processed)
                     (fun '(res, p) => ret (wordIndex + 1, <[arg_id arg := res]> p)) s).
  { unfold evaluate, match_type. rewrite Hm. reflexivity. }
  rewrite E. unfold parseSEPARATE. fold index. fold window. split; [|split].
  - intros ->. unfold process_bind, bind. rewrite process_call_run.
    destruct (arg_process arg EmptyString message processed (world s)) as [[v|e] w];
      reflexivity.
  - intros Hne vs w' H. destruct window as [|token tokens] eqn:Ew; [congruence|].
    apply separate_loop_resolves in H as [H Hlen].
    unfold bind. rewrite H. simpl. unfold ret.
    rewrite insert_insert_eq. split; [reflexivity|exact Hlen].
  - intros pre token post vs w1 w2 e Hw H Hrej.
    pose proof (separate_loop_rejects arg message processed pre token post []
                  s vs w1 w2 e H Hrej) as Hloop.
    rewrite <- Hw in Hloop.
    destruct window as [|t tokens] eqn:Ew; [now destruct pre|].
    unfold bind. rewrite Hloop. reflexivity.
Qed.

Lemma resolves_in_order_length (arg : Argument) (msg : Message)
    (processed : gmap string value) seen tokens w vs w' :
  resolves_in_order arg msg processed seen tokens w vs w' ->
  length vs = length tokens.
Proof. induction 1; simpl; congruence. Qed.

(** C10. In the resolution of a non-empty SEPARATE window, the array of
    the values resolved so far is put under [arg.id] in [processed] before
    the first call of the resolver: once the tokens before the one of
    index [k] have resolved to [seen], the call of the resolver for that
    token, the one of rank [k] among the calls of the function, receives a
    mapping in which [arg.id] holds [seen], which has [k] values and so is
    empty for the first token. *)
Theorem separate_in_progress :
  forall (noPrefixWords : list string) (arg : Argument) (index : Z) (msg : Message)
         (processed : gmap string value) (s : Sys)
         (k : nat) (token : string) (seen : list value) (w1 : World),
    let window :=
      slice (index_or arg index) (add_limit (index_or arg index) (arg_limit arg))
            noPrefixWords in
    window !! k = Some token ->
    resolves_in_order arg msg processed [] (take k window) (world s) seen w1 ->
    exists seen_by_resolver,
      trace (snd (parseSEPARATE noPrefixWords arg index msg processed s))
        !! (length (trace s) + k)%nat
      = Some (ProcessCall (arg_id arg) token seen_by_resolver)
      /\ seen_by_resolver !! arg_id arg = Some (VArr seen)
      /\ length seen = k
      /\ (k = 0%nat -> seen = []).
Proof.
  intros noPrefixWords arg index msg processed s k token seen w1 window Hk H.
  exists (<[arg_id arg := VArr seen]> processed).
  assert (Hlen : length seen = k).
  { apply resolves_in_order_length in H. rewrite H, length_take.
    apply lookup_lt_Some in Hk. lia. }
  split; [|split; [apply lookup_insert_eq|split; [exact Hlen|]]].
  - unfold parseSEPARATE. fold window.
    destruct window as [|t tokens] eqn:E; [discriminate|].
    pose proof (separate_loop_call arg msg processed (t :: tokens) [] s k token
                  seen w1 Hk H) as Hcall.
    simpl app in Hcall. unfold bind.
    destruct (separate_loop arg msg (t :: tokens) []
                (<[arg_id arg := VArr []]> processed) s) as [[[res p]|e] s'];
      exact Hcall.
  - intros ->. now destruct seen.
Qed.

(** ** PREFIX *)

Lemma prefix_loop_find (arg : Argument) (ws : list string) :
  prefix_loop arg ws
  = match List.find (fun token => match spec_hit_value arg token with
                                  | Some _ => true
                                  | None => false
                                  end) ws with
    | Some token =>
        match spec_hit_value arg token with
        | Some v => Some (v, Str.toLowerCase (Str.trim token))
        | None => None
        end
    | None => None
    end.
Proof.
  induction ws as [|w ws IH]; simpl; [reflexivity|].
  rewrite IH. clear IH.
  destruct (spec_hit_value arg w) as [v|] eqn:Hv; simpl; [rewrite Hv|];
    unfold spec_hit_value in Hv; destruct (arg_prefix arg) as [p|ps]; simpl in Hv.
  - destruct (Str.startsWith _ _); [|discriminate]. now injection Hv as ->.
  - now rewrite Hv.
  - destruct (Str.startsWith _ _); [discriminate|]. reflexivity.
  - now rewrite Hv.
Qed.

Lemma prefix_loop_spec (arg : Argument) (words : list string) :
  prefix_loop arg (rev words) = spec_last_hit arg words.
Proof. apply prefix_loop_find. Qed.

Lemma spec_last_hit_starts (arg : Argument) (pool : list string) v token :
  spec_last_hit arg pool = Some (v, token) ->
  In v (prefix_values (arg_prefix arg))
  /\ Str.startsWith token (Str.toLowerCase v) = true.
Proof.
  unfold spec_last_hit.
  destruct (List.find _ (rev pool)) as [w|]; [|discriminate].
  destruct (spec_hit_value arg w) as [v'|] eqn:Hv; [|discriminate].
  intros H. injection H as <- <-.
  unfold spec_hit_value in Hv. apply find_some in Hv. exact Hv.
Qed.

Lemma find_first {A} (f : A -> bool) (l : list A) (x : A) :
  List.find f l = Some x ->
  exists l1 l2, l = (l1 ++ x :: l2)%list /\ f x = true
                /\ forall y, In y l1 -> f y = false.
Proof.
  induction l as [|a l IH]; simpl; [discriminate|].
  destruct (f a) eqn:Ha.
  - intros H. injection H as ->. exists [], l. repeat split; [exact Ha|]. intros y [].
  - intros H. destruct (IH H) as (l1 & l2 & -> & Hx & Hl1).
    exists (a :: l1), l2. repeat split; [exact Hx|].
    intros y [<-|Hy]; [exact Ha|apply Hl1, Hy].
Qed.

(** The hit of [spec_last_hit] is on the last word of the pool that starts
    with a prefix value: no word after it does. *)
Lemma spec_last_hit_is_last (arg : Argument) (pool : list string) v token :
  spec_last_hit arg pool = Some (v, token) ->
  exists before w after,
    pool = (before ++ w :: after)%list
    /\ token = Str.toLowerCase (Str.trim w)
    /\ spec_hit_value arg w = Some v
    /\ forall w', In w' after -> spec_hit_value arg w' = None.
Proof.
  unfold spec_last_hit.
  destruct (List.find _ (rev pool)) as [w|] eqn:Hf; [|discriminate].
  destruct (spec_hit_value arg w) as [v'|] eqn:Hv; [|discriminate].
  intros H. injection H as <- <-.
  apply find_first in Hf as (l1 & l2 & Hrev & _ & Hl1).
  exists (rev l2), w, (rev l1). repeat split; [|exact Hv|].
  - rewrite <- (rev_involutive pool), Hrev, rev_app_distr. simpl.
    now rewrite <- app_assoc.
  - intros w' Hin. apply in_rev in Hin. specialize (Hl1 w' Hin).
    destruct (spec_hit_value arg w'); [discriminate|reflexivity].
Qed.

Lemma replace_empty_head (s p : string) :
  Str.startsWith s p = true -> Str.replace_empty s p = Str.drop (String.length p) s.
Proof. intros H. destruct s; cbn [Str.replace_empty]; now rewrite H. Qed.

Lemma startsWith_nonempty (s p : string) :
  Str.startsWith s p = true -> Str.nonempty p = true -> Str.nonempty s = true.
Proof. destruct p, s; simpl; congruence. Qed.

(** C2, as the code has it.  The PREFIX function scans the unfiltered
    words from the last to the first, takes each word trimmed and in lower
    case, and tests the prefix values in the order of their list before it
    moves to an earlier word.  For prefix values written in lower case, on
    the first hit it removes the prefix value from the head of the word;
    if [isQuoted] holds and the rest, trimmed, is a double quote, one code
    unit or more and a double quote, it gives the resolver the trimmed
    rest without these two quotes, and otherwise the rest as it is, not
    trimmed.  A hit on the empty prefix value gives the word as it is, and
    no hit gives the empty string.  The resolver is called once, with that
    string. *)
Theorem prefix_spec :
  forall (words : list string) (isQuoted : bool) (arg : Argument),
    (forall v, In v (prefix_values (arg_prefix arg)) -> Str.toLowerCase v = v) ->
    prefix_loop arg (rev words) = spec_last_hit arg words
    /\ prefix_word words isQuoted arg = fed_prefix_word isQuoted arg words
    /\ (forall index msg processed s,
           parsePREFIX words isQuoted arg index msg processed s
           = (match fst (arg_process arg (fed_prefix_word isQuoted arg words)
                           msg processed (world s)) with
              | Resolved v => Resolved (v, processed)
              | Rejected e => Rejected e
              end,
              {| world := snd (arg_process arg (fed_prefix_word isQuoted arg words)
                                 msg processed (world s));
                 trace := (trace s
                           ++ [ProcessCall (arg_id arg)
                                 (fed_prefix_word isQuoted arg words) processed])%list |})).
Proof.
  intros words isQuoted arg Hlow.
  assert (E : prefix_word words isQuoted arg = fed_prefix_word isQuoted arg words).
  { unfold prefix_word, fed_prefix_word. rewrite prefix_loop_spec.
    destruct (spec_last_hit arg words) as [[v token]|] eqn:Hhit; [|reflexivity].
    apply spec_last_hit_starts in Hhit as [Hin Hs].
    rewrite (Hlow v Hin) in Hs.
    destruct (Str.nonempty v) eqn:Hv.
    - rewrite (startsWith_nonempty _ _ Hs Hv). simpl.
      unfold unquote. now rewrite replace_empty_head.
    - now rewrite andb_false_r. }
  split; [apply prefix_loop_spec|]. split; [exact E|].
  intros index msg processed s. unfold parsePREFIX, process_bind, bind.
  rewrite E, process_call_run.
  destruct (arg_process arg _ msg processed (world s)) as [[v|e] w]; reflexivity.
Qed.

(** ** Two calls of [parse] *)

Lemma stateless_ret {A} (a : A) : stateless (World := World) (ret a).
Proof. intros s1 s2. reflexivity. Qed.

Lemma stateless_throw {A} (e : thrown) : stateless (@throw World A e).
Proof. intros s1 s2. reflexivity. Qed.

Lemma stateless_bind {A B} (m : Eff A) (k : A -> Eff B) :
  stateless m -> (forall a, stateless (k a)) -> stateless (bind m k).
Proof.
  intros Hm Hk s1 s2. unfold bind. specialize (Hm s1 s2).
  destruct (m s1) as [[a1|e1] s1'], (m s2) as [[a2|e2] s2']; simpl in Hm;
    try discriminate.
  - injection Hm as ->. apply Hk.
  - injection Hm as ->. reflexivity.
Qed.

Lemma stateless_bind_post {A B} (P : A -> Prop) (m : Eff A) (k : A -> Eff B) :
  (forall s a s', m s = (Resolved a, s') -> P a) ->
  stateless m -> (forall a, P a -> stateless (k a)) -> stateless (bind m k).
Proof.
  intros HP Hm Hk s1 s2. unfold bind. specialize (Hm s1 s2).
  destruct (m s1) as [[a1|e1] s1'] eqn:E1, (m s2) as [[a2|e2] s2']; simpl in Hm;
    try discriminate.
  - injection Hm as ->. apply Hk. eapply HP, E1.
  - injection Hm as ->. reflexivity.
Qed.

Lemma find_allowed_in message (alts : list Argument) processed s arg s' :
  find_allowed message alts processed s = (Resolved (Some arg), s') -> In arg alts.
Proof.
  revert s. induction alts as [|a alts IH]; intros s; simpl.
  - discriminate.
  - unfold bind, allow_call, call.
    destruct (arg_allow a message processed (world s)) as [[|] w].
    + unfold ret. intros H. injection H as -> _. now left.
    + intros H. right. eapply IH, H.
Qed.

Lemma stateless_call {A} (e : event) (f : World -> A * World) :
  deterministic f -> stateless (call e f).
Proof.
  intros Hf s1 s2. unfold call. specialize (Hf (world s1) (world s2)).
  destruct (f (world s1)), (f (world s2)). simpl in *. now subst.
Qed.

Lemma stateless_attempt {A} (e : event) (f : World -> Outcome A * World) :
  deterministic f -> stateless (attempt e f).
Proof.
  intros Hf s1 s2. unfold attempt. specialize (Hf (world s1) (world s2)).
  destruct (f (world s1)), (f (world s2)). simpl in *. now subst.
Qed.

Lemma stateless_process_bind (arg : Argument) (word : string) msg processed :
  deterministic_arg arg -> stateless (process_bind arg word msg processed).
Proof.
  intros (_ & _ & Hp & _). apply stateless_bind.
  - apply stateless_attempt, Hp.
  - intros v. apply stateless_ret.
Qed.

Lemma stateless_separate_loop (arg : Argument) msg tokens res processed :
  deterministic_arg arg -> stateless (separate_loop arg msg tokens res processed).
Proof.
  intros Hd. revert res processed.
  induction tokens as [|token tokens IH]; intros res processed; simpl.
  - apply stateless_ret.
  - apply stateless_bind; [|intros v; apply IH].
    destruct Hd as (_ & _ & Hp & _). apply stateless_attempt, Hp.
Qed.

Lemma stateless_parseFuncs (this : Command) content words isQuoted noPrefixWords
    matchType parseFunc (arg : Argument) index msg processed :
  deterministic_arg arg ->
  parseFuncs this content words isQuoted noPrefixWords matchType = Some parseFunc ->
  stateless (parseFunc arg index msg processed).
Proof.
  intros Hd Hpf.
  destruct matchType; simpl in Hpf; try discriminate; injection Hpf as <-;
    try (apply stateless_process_bind; exact Hd).
  - unfold parseSEPARATE. destruct (slice _ _ _).
    + apply stateless_process_bind; exact Hd.
    + apply stateless_bind; [apply stateless_separate_loop; exact Hd|].
      intros [res p]. apply stateless_ret.
  - unfold parseFLAG. apply stateless_bind.
    + destruct Hd as (_ & Hdef & _). apply stateless_call, Hdef.
    + intros d. apply stateless_ret.
Qed.

Lemma stateless_evaluate (this : Command) content message words isQuoted
    noPrefixWords (arg : Argument) wordIndex processed :
  deterministic_arg arg ->
  stateless (evaluate this content message words isQuoted noPrefixWords
                      arg wordIndex processed).
Proof.
  intros Hd. unfold evaluate. apply stateless_bind.
  - unfold match_type. destruct Hd as (_ & _ & _ & Hm).
    destruct (arg_match arg); [apply stateless_ret|apply stateless_call, Hm].
  - intros m.
    destruct (parseFuncs this content words isQuoted noPrefixWords m) eqn:Hpf;
      [|apply stateless_throw].
    apply stateless_bind.
    + eapply stateless_parseFuncs; eassumption.
    + intros [res p]. apply stateless_ret.
Qed.

Lemma stateless_find_allowed message (alts : list Argument) processed :
  Forall deterministic_arg alts -> stateless (find_allowed message alts processed).
Proof.
  induction 1 as [|a alts Ha _ IH]; simpl.
  - apply stateless_ret.
  - apply stateless_bind.
    + destruct Ha as (Hallow & _). apply stateless_call, Hallow.
    + intros [|]; [apply stateless_ret|exact IH].
Qed.

Lemma stateless_step (this : Command) content message words isQuoted noPrefixWords
    (slot : Slot) wordIndex processed :
  deterministic_slot slot ->
  stateless (step send this content message words isQuoted noPrefixWords
                  slot wordIndex processed).
Proof.
  intros Hd. destruct slot as [arg|alts|f]; simpl in *.
  - apply stateless_bind.
    + destruct Hd as (Hallow & _). apply stateless_call, Hallow.
    + intros [|]; [apply stateless_evaluate; exact Hd|apply stateless_ret].
  - apply (stateless_bind_post
             (fun found => match found with Some arg => In arg alts | None => True end)).
    + intros s [arg|] s' H; [eapply find_allowed_in, H|exact I].
    + apply stateless_find_allowed; exact Hd.
    + intros [arg|] Hin; [|apply stateless_ret].
      apply stateless_evaluate. rewrite List.Forall_forall in Hd. apply Hd, Hin.
  - unfold cancel_slot. apply stateless_bind; [apply stateless_call, Hd|].
    intros cancel. destruct (negb (nullish cancel) && negb (is_bool false cancel));
      [|apply stateless_ret].
    apply stateless_bind; [|intros; apply stateless_throw].
    destruct (truthy cancel && negb (is_bool true cancel)); [|apply stateless_ret].
    intros s1 s2. unfold call.
    destruct (send message cancel (world s1)) as [[] ?],
             (send message cancel (world s2)) as [[] ?]. reflexivity.
Qed.

Lemma stateless_process (this : Command) content message words isQuoted noPrefixWords
    (slots : list Slot) wordIndex processed :
  Forall deterministic_slot slots ->
  stateless (process send this content message words isQuoted noPrefixWords
                     slots wordIndex processed).
Proof.
  intros Hd. revert wordIndex processed.
  induction Hd as [|slot slots Hslot _ IH]; intros wordIndex processed; simpl.
  - apply stateless_ret.
  - apply stateless_bind; [apply stateless_step; exact Hslot|].
    intros [wi p]. apply IH.
Qed.

Lemma stateless_splitText (this : Command) content message :
  deterministic_command this -> stateless (_splitText this content message).
Proof.
  intros [_ Hs]. unfold _splitText.
  destruct (split this) as [name|f|f].
  - destruct (property name) as [[own|p]|].
    + apply stateless_call. intros w1 w2. reflexivity.
    + apply stateless_attempt. intros w1 w2. reflexivity.
    + apply stateless_call. intros w1 w2. reflexivity.
  - apply stateless_bind; [apply stateless_call, Hs|]. intros r. apply stateless_ret.
  - apply stateless_call. intros w1 w2. reflexivity.
Qed.

Lemma stateless_parse (this : Command) content message :
  deterministic_command this -> stateless (parse send this content message).
Proof.
  intros Hd. unfold parse. destruct (args this) as [|slot slots] eqn:E.
  - apply stateless_ret.
  - apply stateless_bind; [apply stateless_splitText; exact Hd|].
    intros [ws|]; [|apply stateless_throw]. apply stateless_bind.
    + apply stateless_process. destruct Hd as [Hd _]. rewrite E in Hd. exact Hd.
    + intros [wi p]. apply stateless_ret.
Qed.

(** C8. When the functions given to the command are deterministic (the
    resolvers, [allow], [default], the dynamic match types, the cancel
    functions and a custom split function return the same value whatever
    the state of the world), two calls of [parse] with the same content
    and the same message have the same outcome, the same result mapping
    when they resolve, in whatever states they start; in particular a
    second call made after a first one, in the state that the first one
    left, has the outcome of the first: [parse] keeps nothing from one
    call to the next. *)
Theorem parse_deterministic :
  forall (this : Command) (content : string) (message : Message),
    deterministic_command this ->
    (forall s1 s2 : Sys,
        fst (parse send this content message s1)
        = fst (parse send this content message s2))
    /\ (forall s : Sys,
           fst (parse send this content message
                      (snd (parse send this content message s)))
           = fst (parse send this content message s)).
Proof.
  intros this content message Hd. split.
  - apply stateless_parse, Hd.
  - intros s. apply stateless_parse, Hd.
Qed.

End Properties.

(** * Further properties of the split methods and of the match functions *)

(** ** Strings *)

Lemma append_nil_r (s : string) : s ++ EmptyString = s.
Proof.
  induction s as [|c s IH]; [reflexivity|].
  change (String c (s ++ EmptyString) = String c s). now rewrite IH.
Qed.

Lemma append_assoc (a b c : string) : (a ++ b) ++ c = a ++ b ++ c.
Proof.
  induction a as [|x a IH]; [reflexivity|].
  change (String x ((a ++ b) ++ c) = String x (a ++ b ++ c)). now rewrite IH.
Qed.

Lemma join_empty_cons (x : string) (l : list string) :
  Str.join EmptyString (x :: l) = x ++ Str.join EmptyString l.
Proof. destruct l; simpl; [now rewrite append_nil_r|reflexivity]. Qed.

Lemma strip_append (a b : string) :
  Text.strip (a ++ b) = Text.strip a ++ Text.strip b.
Proof.
  induction a as [|c a IH]; simpl; [reflexivity|].
  destruct (Str.is_space c); simpl; now rewrite IH.
Qed.

Lemma strip_snoc_blank (s : string) (c : ascii) :
  Str.is_space c = true -> Text.strip (Tokenizer.snoc s c) = Text.strip s.
Proof.
  intros H. unfold Tokenizer.snoc. rewrite strip_append. simpl. rewrite H.
  apply append_nil_r.
Qed.

Lemma strip_snoc (s : string) (c : ascii) :
  Str.is_space c = false ->
  Text.strip (Tokenizer.snoc s c) = Text.strip s ++ String c EmptyString.
Proof.
  intros H. unfold Tokenizer.snoc. rewrite strip_append. simpl. now rewrite H.
Qed.

Lemma strip_flush (cur : string) :
  Text.strip (Str.join EmptyString (Tokenizer.flush cur)) = Text.strip cur.
Proof. unfold Tokenizer.flush. destruct cur; reflexivity. Qed.

(** ** The tokens keep what is not white space *)

Lemma plain_strip (s cur : string) :
  Text.strip (Str.join EmptyString (Tokenizer.plain cur s))
  = Text.strip cur ++ Text.strip s.
Proof.
  revert cur. induction s as [|c r IH]; intros cur; simpl.
  - rewrite strip_flush. now rewrite append_nil_r.
  - destruct (Str.is_space c) eqn:Hc.
    + destruct (Str.nonempty cur) eqn:Hn.
      * rewrite join_empty_cons, strip_append, IH, strip_snoc_blank by exact Hc.
        reflexivity.
      * rewrite IH. destruct cur; [reflexivity|discriminate].
    + rewrite IH, strip_snoc by exact Hc. rewrite append_assoc. reflexivity.
Qed.

Lemma quoted_strip (s : string) (st : Tokenizer.scan) (cur : string) :
  (st = Tokenizer.Idle \/ st = Tokenizer.Pre -> cur = EmptyString) ->
  Text.strip (Str.join EmptyString (Tokenizer.quoted st cur s))
  = Text.strip cur ++ Text.strip s.
Proof.
  revert st cur. induction s as [|c r IH]; intros st cur Hst.
  - simpl. rewrite strip_flush. now rewrite append_nil_r.
  - assert (Hstart :
      Text.strip (Str.join EmptyString
        (if Str.is_space c then Tokenizer.quoted Tokenizer.Idle EmptyString r
         else if Ascii.eqb c Str.dquote && Tokenizer.has_dquote r
              then Tokenizer.quoted Tokenizer.Quote (String c EmptyString) r
              else Tokenizer.quoted Tokenizer.Word (String c EmptyString) r))
      = Text.strip (String c r)).
    { simpl. destruct (Str.is_space c) eqn:Hc.
      - rewrite IH by reflexivity. reflexivity.
      - destruct (Ascii.eqb c Str.dquote && Tokenizer.has_dquote r);
          rewrite IH by (intros [|]; discriminate); simpl; now rewrite Hc. }
    cbn [Tokenizer.quoted].
    destruct st.
    + rewrite Hstart, Hst by auto. reflexivity.
    + destruct (Str.is_space c) eqn:Hc.
      * rewrite join_empty_cons, strip_append, IH, strip_snoc_blank by auto.
        simpl. now rewrite Hc.
      * rewrite IH, strip_snoc by (auto; intros [|]; discriminate).
        simpl. rewrite Hc, append_assoc. reflexivity.
    + rewrite Hstart, Hst by auto. reflexivity.
    + destruct (Ascii.eqb c Str.dquote) eqn:Hq.
      * assert (Hc : Str.is_space c = false)
          by (apply Ascii.eqb_eq in Hq; subst; reflexivity).
        rewrite IH, strip_snoc by (auto; intros [|]; discriminate).
        simpl. rewrite Hc, append_assoc. reflexivity.
      * destruct (Str.is_space c) eqn:Hc.
        -- rewrite IH, strip_snoc_blank by (auto; intros [|]; discriminate).
           simpl. now rewrite Hc.
        -- rewrite IH, strip_snoc by (auto; intros [|]; discriminate).
           simpl. rewrite Hc, append_assoc. reflexivity.
    + destruct (Str.is_space c) eqn:Hc.
      * rewrite join_empty_cons, strip_append, IH, strip_snoc_blank by auto.
        simpl. now rewrite Hc.
      * rewrite join_empty_cons, strip_append, Hstart. reflexivity.
Qed.

Lemma sticky_strip (s : string) (st : Tokenizer.scan) (cur : string) :
  (st = Tokenizer.Idle -> cur = EmptyString) ->
  Text.strip (Str.join EmptyString (Tokenizer.sticky st cur s))
  = Text.strip cur ++ Text.strip s.
Proof.
  revert st cur. induction s as [|c r IH]; intros st cur Hst.
  - simpl. rewrite strip_flush. now rewrite append_nil_r.
  - assert (Hstart :
      Text.strip (Str.join EmptyString
        (if Str.is_space c then Tokenizer.sticky Tokenizer.Idle EmptyString r
         else if Tokenizer.sticky_ahead (String c r)
              then (if Ascii.eqb c Str.dquote
                    then Tokenizer.sticky Tokenizer.Quote (String c EmptyString) r
                    else Tokenizer.sticky Tokenizer.Pre (String c EmptyString) r)
              else Tokenizer.sticky Tokenizer.Word (String c EmptyString) r))
      = Text.strip (String c r)).
    { cbn [Text.strip]. destruct (Str.is_space c) eqn:Hc.
      - rewrite IH by reflexivity. reflexivity.
      - destruct (Tokenizer.sticky_ahead (String c r));
          [destruct (Ascii.eqb c Str.dquote)|];
          rewrite IH by discriminate; simpl; now rewrite Hc. }
    cbn [Tokenizer.sticky].
    destruct st.
    + rewrite Hstart, Hst by auto. reflexivity.
    + destruct (Str.is_space c) eqn:Hc.
      * rewrite join_empty_cons, strip_append, IH, strip_snoc_blank by auto.
        simpl. now rewrite Hc.
      * rewrite IH, strip_snoc by (auto; discriminate).
        simpl. rewrite Hc, append_assoc. reflexivity.
    + destruct (Ascii.eqb c Str.dquote) eqn:Hq; destruct (Str.is_space c) eqn:Hc;
        rewrite IH by discriminate;
        rewrite ?strip_snoc_blank, ?strip_snoc by exact Hc;
        cbn [Text.strip]; rewrite Hc, ?append_assoc; reflexivity.
    + destruct (Ascii.eqb c Str.dquote) eqn:Hq; destruct (Str.is_space c) eqn:Hc;
        rewrite IH by discriminate;
        rewrite ?strip_snoc_blank, ?strip_snoc by exact Hc;
        cbn [Text.strip]; rewrite Hc, ?append_assoc; reflexivity.
    + destruct (Str.is_space c) eqn:Hc.
      * rewrite join_empty_cons, strip_append, IH, strip_snoc_blank by auto.
        simpl. now rewrite Hc.
      * rewrite join_empty_cons, strip_append, Hstart. reflexivity.
Qed.

Lemma startsWith_empty (s : string) : Str.startsWith s EmptyString = true.
Proof. destruct s; reflexivity. Qed.

Lemma split_space_go (s cur : string) :
  Str.split_go " " O cur s
  = match s with
    | EmptyString => [cur]
    | String c r =>
        if Ascii.eqb c " "
        then cur :: Str.split_go " " O EmptyString r
        else Str.split_go " " O (cur ++ String c EmptyString) r
    end.
Proof.
  destruct s as [|c r]; [reflexivity|]. cbn [Str.split_go Str.startsWith].
  rewrite startsWith_empty. destruct (Ascii.eqb c " "); reflexivity.
Qed.

Lemma split_space_strip (s cur : string) :
  Text.strip (Str.join EmptyString (Str.split_go " " O cur s))
  = Text.strip cur ++ Text.strip s.
Proof.
  revert cur. induction s as [|c r IH]; intros cur; rewrite split_space_go.
  - simpl. now rewrite append_nil_r.
  - destruct (Ascii.eqb c " ") eqn:Hc.
    + apply Ascii.eqb_eq in Hc. subst c.
      rewrite join_empty_cons, strip_append, IH. reflexivity.
    + rewrite IH, strip_append, append_assoc.
      change (String c r) with (String c EmptyString ++ r).
      now rewrite strip_append.
Qed.

(** X1. Whatever the built-in split method, the words put end to end are
    the content with some white space removed: no other code unit is
    lost, added or moved. *)
Theorem tokens_keep_text :
  forall (name : ArgumentSplits.t) (content : string),
    Text.strip (Str.join EmptyString (splitFuncs name content))
    = Text.strip content.
Proof.
  intros [] content; simpl.
  - apply (plain_strip content EmptyString).
  - apply (split_space_strip content EmptyString).
  - now rewrite quoted_strip by reflexivity.
  - now rewrite sticky_strip by reflexivity.
  - reflexivity.
Qed.

(** ** The words of the plain method *)

Lemma all_snoc (p : ascii -> bool) (s : string) (c : ascii) :
  Text.all p (Tokenizer.snoc s c) = Text.all p s && p c.
Proof.
  unfold Tokenizer.snoc. induction s as [|a s IH].
  - simpl. now rewrite andb_true_r.
  - change (p a && Text.all p (s ++ String c EmptyString)
            = p a && Text.all p s && p c).
    now rewrite IH, andb_assoc.
Qed.

Lemma plain_tokens (s cur t : string) :
  Text.no_blank cur = true ->
  In t (Tokenizer.plain cur s) -> Text.plain_token t.
Proof.
  revert cur. induction s as [|c r IH]; intros cur Hcur; simpl.
  - unfold Tokenizer.flush. destruct (Str.nonempty cur) eqn:Hn; [|intros []].
    intros [<-|[]]. exists cur. auto.
  - destruct (Str.is_space c) eqn:Hc.
    + destruct (Str.nonempty cur) eqn:Hn.
      * intros [<-|Hin].
        -- exists cur. repeat split; auto. right. exists c. auto.
        -- apply (IH EmptyString); auto.
      * apply IH. reflexivity.
    + apply IH. unfold Text.no_blank. rewrite all_snoc.
      unfold Text.no_blank in Hcur. now rewrite Hcur, Hc.
Qed.

(** X2. Every word of the plain split method is a run of one or more
    code units that are not white space, followed by at most one white
    space: no word is empty and none has white space inside. *)
Theorem plain_words_shape :
  forall (content t : string),
    In t (splitFuncs ArgumentSplits.PLAIN content) -> Text.plain_token t.
Proof. intros content t. apply plain_tokens. reflexivity. Qed.

(** ** Splitting on a separator and joining *)

Lemma drop_empty (n : nat) : Str.drop n EmptyString = EmptyString.
Proof. destruct n; reflexivity. Qed.

Lemma startsWith_drop (s p : string) :
  Str.startsWith s p = true -> s = p ++ Str.drop (String.length p) s.
Proof.
  revert s. induction p as [|b p IH]; intros s H; [reflexivity|].
  destruct s as [|a s]; [discriminate|]. cbn [Str.startsWith] in H.
  destruct (Ascii.eqb a b) eqn:E; [|discriminate].
  apply Ascii.eqb_eq in E. subst b.
  change (String a s = String a (p ++ Str.drop (String.length p) s)).
  now rewrite <- IH.
Qed.

Lemma split_go_cons (sep : string) (skip : nat) (cur s : string) :
  exists x l, Str.split_go sep skip cur s = x :: l.
Proof.
  revert skip cur. induction s as [|c r IH]; intros skip cur;
    cbn [Str.split_go]; [eauto|].
  destruct skip; [|apply IH].
  destruct (Str.startsWith (String c r) sep); [eauto|apply IH].
Qed.

Lemma join_cons_cons (sep a b : string) (l : list string) :
  Str.join sep (a :: b :: l) = a ++ sep ++ Str.join sep (b :: l).
Proof. reflexivity. Qed.

Lemma join_split_go (a : ascii) (sep' : string) (s : string) (skip : nat)
    (cur : string) :
  Str.join (String a sep') (Str.split_go (String a sep') skip cur s)
  = cur ++ Str.drop skip s.
Proof.
  revert skip cur. induction s as [|c r IH]; intros skip cur.
  - simpl. now rewrite drop_empty, append_nil_r.
  - cbn [Str.split_go]. destruct skip as [|k]; [|apply IH].
    destruct (Str.startsWith (String c r) (String a sep')) eqn:Hs.
    + destruct (split_go_cons (String a sep') (String.length (String a sep') - 1)
                  EmptyString r) as (x & l & Hl).
      pose proof (IH (String.length (String a sep') - 1)%nat EmptyString) as Hj.
      rewrite Hl in *. rewrite join_cons_cons, Hj.
      apply startsWith_drop in Hs.
      cbn [String.length Str.drop] in *.
      replace (S (String.length sep') - 1)%nat with (String.length sep') by lia.
      change (cur ++ String a sep' ++ Str.drop (String.length sep') r
              = cur ++ String c r).
      now rewrite <- Hs.
    + rewrite IH, append_assoc. reflexivity.
Qed.

Lemma join_chars (s : string) : Str.join EmptyString (Str.chars s) = s.
Proof.
  induction s as [|c r IH]; [reflexivity|].
  cbn [Str.chars]. rewrite join_empty_cons, IH. reflexivity.
Qed.

(** Splitting a string on a separator and joining the pieces with the
    same separator gives the string back, whatever the separator. *)
Theorem join_split :
  forall (s sep : string), Str.join sep (Str.split s sep) = s.
Proof.
  intros s sep. unfold Str.split. destruct sep as [|a sep].
  - apply join_chars.
  - apply (join_split_go a sep s O EmptyString).
Qed.

(** ** Quoted text *)

Lemma quote_append (inner rest : string) :
  Text.quote inner ++ rest
  = String Str.dquote (inner ++ String Str.dquote rest).
Proof.
  unfold Text.quote.
  change (String Str.dquote ((inner ++ String Str.dquote EmptyString) ++ rest)
          = String Str.dquote (inner ++ String Str.dquote rest)).
  now rewrite append_assoc.
Qed.

Lemma snoc_append (cur : string) (c : ascii) (s : string) :
  Tokenizer.snoc cur c ++ s = cur ++ String c s.
Proof. unfold Tokenizer.snoc. now rewrite append_assoc. Qed.

Lemma has_dquote_append (a b : string) :
  Tokenizer.has_dquote (a ++ String Str.dquote b) = true.
Proof.
  induction a as [|c a IH]; [reflexivity|].
  change (Ascii.eqb c Str.dquote || Tokenizer.has_dquote (a ++ String Str.dquote b)
          = true).
  rewrite IH. apply orb_true_r.
Qed.

Lemma nonempty_snoc (cur : string) (c : ascii) :
  Str.nonempty (Tokenizer.snoc cur c) = true.
Proof. destruct cur; reflexivity. Qed.

(** The scan of the text of a quoted segment, up to its closing quote. *)
Lemma quoted_inside (inner cur rest : string) :
  Text.no_dquote inner = true ->
  Tokenizer.quoted Tokenizer.Quote cur (inner ++ String Str.dquote rest)
  = Tokenizer.quoted Tokenizer.Closed (cur ++ inner ++ String Str.dquote EmptyString)
                     rest.
Proof.
  revert cur. induction inner as [|c inner IH]; intros cur H.
  - reflexivity.
  - cbn [Text.no_dquote Text.all] in H. apply andb_prop in H as [Hc H].
    change (String c inner ++ String Str.dquote rest)
      with (String c (inner ++ String Str.dquote rest)).
    cbn [Tokenizer.quoted]. apply negb_true_iff in Hc. rewrite Hc.
    rewrite (IH _ H), snoc_append. reflexivity.
Qed.

Lemma sticky_inside (inner cur rest : string) :
  Text.no_dquote inner = true ->
  Tokenizer.sticky Tokenizer.Quote cur (inner ++ String Str.dquote rest)
  = Tokenizer.sticky Tokenizer.Closed (cur ++ inner ++ String Str.dquote EmptyString)
                     rest.
Proof.
  revert cur. induction inner as [|c inner IH]; intros cur H.
  - reflexivity.
  - cbn [Text.no_dquote Text.all] in H. apply andb_prop in H as [Hc H].
    change (String c inner ++ String Str.dquote rest)
      with (String c (inner ++ String Str.dquote rest)).
    cbn [Tokenizer.sticky]. apply negb_true_iff in Hc. rewrite Hc.
    rewrite (IH _ H), snoc_append. reflexivity.
Qed.

(** What follows a closed quoted segment [cur]: the white space next to
    it, if any, goes with it. *)
Lemma quoted_closed (cur rest : string) :
  Str.nonempty cur = true ->
  Tokenizer.quoted Tokenizer.Closed cur rest
  = match rest with
    | String c r =>
        if Str.is_space c
        then (cur ++ String c EmptyString)
               :: Tokenizer.quoted Tokenizer.Idle EmptyString r
        else cur :: Tokenizer.quoted Tokenizer.Idle EmptyString rest
    | EmptyString => [cur]
    end.
Proof.
  intros Hn. destruct rest as [|c r]; simpl.
  - unfold Tokenizer.flush. now rewrite Hn.
  - destruct (Str.is_space c); reflexivity.
Qed.

Lemma sticky_closed (cur rest : string) :
  Str.nonempty cur = true ->
  Tokenizer.sticky Tokenizer.Closed cur rest
  = match rest with
    | String c r =>
        if Str.is_space c
        then (cur ++ String c EmptyString)
               :: Tokenizer.sticky Tokenizer.Idle EmptyString r
        else cur :: Tokenizer.sticky Tokenizer.Idle EmptyString rest
    | EmptyString => [cur]
    end.
Proof.
  intros Hn. destruct rest as [|c r]; simpl.
  - unfold Tokenizer.flush. now rewrite Hn.
  - destruct (Str.is_space c); reflexivity.
Qed.

(** X3. With the quoted split method, a content that starts with a text
    between double quotes, the text having no double quote in it, has
    that text with its quotes as first word, whatever white space the
    text holds; one white space that follows the closing quote goes with
    the word, and the rest of the content is split on its own. *)
Theorem quoted_segment :
  forall (inner rest : string),
    Text.no_dquote inner = true ->
    splitFuncs ArgumentSplits.QUOTED (Text.quote inner ++ rest)
    = match rest with
      | String c r =>
          if Str.is_space c
          then (Text.quote inner ++ String c EmptyString)
                 :: splitFuncs ArgumentSplits.QUOTED r
          else Text.quote inner :: splitFuncs ArgumentSplits.QUOTED rest
      | EmptyString => [Text.quote inner]
      end.
Proof.
  intros inner rest H. rewrite quote_append. cbn [splitFuncs Tokenizer.quoted].
  change (Str.is_space Str.dquote) with false.
  change (Ascii.eqb Str.dquote Str.dquote) with true.
  rewrite has_dquote_append. cbn [andb].
  rewrite (quoted_inside inner _ rest H).
  apply quoted_closed. reflexivity.
Qed.

Lemma append_nil_l (s : string) : EmptyString ++ s = s.
Proof. reflexivity. Qed.

Lemma sticky_ahead_key (key s : string) :
  Text.bare key = true ->
  Tokenizer.sticky_ahead (key ++ String Str.dquote s) = Tokenizer.has_dquote s.
Proof.
  induction key as [|c key IH]; intros H; [reflexivity|].
  cbn [Text.bare Text.all] in H. apply andb_prop in H as [Hc H].
  apply andb_prop in Hc as [Hs Hq]. apply negb_true_iff in Hs, Hq.
  change (String c key ++ String Str.dquote s)
    with (String c (key ++ String Str.dquote s)).
  cbn [Tokenizer.sticky_ahead]. rewrite Hq, Hs. apply IH, H.
Qed.

(** The scan of the text glued before a quoted segment. *)
Lemma sticky_before (key cur s : string) :
  Text.bare key = true ->
  Tokenizer.sticky Tokenizer.Pre cur (key ++ String Str.dquote s)
  = Tokenizer.sticky Tokenizer.Quote (cur ++ key ++ String Str.dquote EmptyString) s.
Proof.
  revert cur. induction key as [|c key IH]; intros cur H; [reflexivity|].
  cbn [Text.bare Text.all] in H. apply andb_prop in H as [Hc H].
  apply andb_prop in Hc as [Hs Hq]. apply negb_true_iff in Hq.
  change (String c key ++ String Str.dquote s)
    with (String c (key ++ String Str.dquote s)).
  cbn [Tokenizer.sticky]. rewrite Hq, (IH _ H), snoc_append. reflexivity.
Qed.

(** X4. With the sticky split method, a content that starts with a text
    without white space or double quote (possibly empty) glued to a text
    between double quotes has the two as one first word, whatever white
    space the quoted text holds; one white space that follows the closing
    quote goes with the word, and the rest of the content is split on its
    own. *)
Theorem sticky_segment :
  forall (key inner rest : string),
    Text.bare key = true ->
    Text.no_dquote inner = true ->
    splitFuncs ArgumentSplits.STICKY (key ++ Text.quote inner ++ rest)
    = match rest with
      | String c r =>
          if Str.is_space c
          then (key ++ Text.quote inner ++ String c EmptyString)
                 :: splitFuncs ArgumentSplits.STICKY r
          else (key ++ Text.quote inner) :: splitFuncs ArgumentSplits.STICKY rest
      | EmptyString => [key ++ Text.quote inner]
      end.
Proof.
  intros key inner rest Hkey Hinner. rewrite quote_append.
  assert (E : splitFuncs ArgumentSplits.STICKY
                (key ++ String Str.dquote (inner ++ String Str.dquote rest))
              = Tokenizer.sticky Tokenizer.Closed (key ++ Text.quote inner) rest).
  { cbn [splitFuncs]. destruct key as [|c key].
    - rewrite !append_nil_l.
      cbn [Tokenizer.sticky Tokenizer.sticky_ahead].
      change (Str.is_space Str.dquote) with false.
      change (Ascii.eqb Str.dquote Str.dquote) with true.
      cbn iota. rewrite has_dquote_append.
      rewrite (sticky_inside inner _ rest Hinner). reflexivity.
    - pose proof (sticky_ahead_key (String c key)
                    (inner ++ String Str.dquote rest) Hkey) as Ha.
      rewrite has_dquote_append in Ha.
      pose proof Hkey as Hk. cbn [Text.bare Text.all] in Hk.
      apply andb_prop in Hk as [Hc Hk].
      apply andb_prop in Hc as [Hs Hq]. apply negb_true_iff in Hs, Hq.
      change (String c key ++ String Str.dquote (inner ++ String Str.dquote rest))
        with (String c (key ++ String Str.dquote (inner ++ String Str.dquote rest)))
        in *.
      cbn [Tokenizer.sticky]. rewrite Hs, Ha, Hq.
      rewrite (sticky_before key _ _ Hk), (sticky_inside inner _ rest Hinner).
      f_equal. unfold Text.quote.
      change (String c EmptyString ++ key ++ String Str.dquote EmptyString)
        with (String c (key ++ String Str.dquote EmptyString)).
      change (String c key ++ String Str.dquote (inner ++ String Str.dquote EmptyString))
        with (String c (key ++ String Str.dquote (inner ++ String Str.dquote EmptyString))).
      change (String c (key ++ String Str.dquote EmptyString)
              ++ inner ++ String Str.dquote EmptyString)
        with (String c ((key ++ String Str.dquote EmptyString)
                        ++ inner ++ String Str.dquote EmptyString)).
      now rewrite append_assoc. }
  rewrite E, sticky_closed.
  - destruct rest as [|c r]; [reflexivity|].
    destruct (Str.is_space c); [|reflexivity].
    now rewrite append_assoc.
  - destruct key; reflexivity.
Qed.

(** The scan of a run without white space, up to the white space that
    ends it. *)
Lemma quoted_run (w cur : string) (c : ascii) (r : string) :
  Text.no_blank w = true -> Str.is_space c = true ->
  Tokenizer.quoted Tokenizer.Word cur (w ++ String c r)
  = (cur ++ w ++ String c EmptyString)
      :: Tokenizer.quoted Tokenizer.Idle EmptyString r.
Proof.
  revert cur. induction w as [|a w IH]; intros cur Hw Hc.
  - rewrite append_nil_l. cbn [Tokenizer.quoted]. rewrite Hc. reflexivity.
  - cbn [Text.no_blank Text.all] in Hw. apply andb_prop in Hw as [Ha Hw].
    apply negb_true_iff in Ha.
    change (String a w ++ String c r) with (String a (w ++ String c r)).
    cbn [Tokenizer.quoted]. rewrite Ha, (IH _ Hw Hc), snoc_append. reflexivity.
Qed.

(** X5. With the quoted split method, a run of code units without white
    space that does not start with a double quote is one word, up to and
    with the white space that ends it, also when the run holds a double
    quote: a quote glued to the text before it does not keep the white
    space that follows in the word. *)
Theorem quoted_glued :
  forall (a : ascii) (w : string) (c : ascii) (r : string),
    Ascii.eqb a Str.dquote = false ->
    Text.no_blank (String a w) = true ->
    Str.is_space c = true ->
    splitFuncs ArgumentSplits.QUOTED (String a w ++ String c r)
    = (String a w ++ String c EmptyString) :: splitFuncs ArgumentSplits.QUOTED r.
Proof.
  intros a w c r Ha Hw Hc.
  cbn [Text.no_blank Text.all] in Hw. apply andb_prop in Hw as [Hs Hw].
  apply negb_true_iff in Hs.
  change (String a w ++ String c r) with (String a (w ++ String c r)).
  cbn [splitFuncs Tokenizer.quoted]. rewrite Hs, Ha. cbn [andb].
  rewrite (quoted_run w _ c r Hw Hc). reflexivity.
Qed.

Section Further.

Context {Message World : Type}.
Variable send : Message -> value -> World -> unit * World.

Abbreviation Argument := (@Argument Message World).
Abbreviation Slot := (@Slot Message World).
Abbreviation Command := (@Command Message World).
Abbreviation Sys := (@Sys World).
Abbreviation Eff := (@Eff World).

(** ** Quotes around a word *)

Lemma last_snoc (s : string) (c : ascii) :
  Str.last (s ++ String c EmptyString) = Some c.
Proof.
  induction s as [|a s IH]; [reflexivity|].
  change (String a s ++ String c EmptyString)
    with (String a (s ++ String c EmptyString)).
  cbn [Str.last]. rewrite IH. destruct s; reflexivity.
Qed.

Lemma init_snoc (s : string) (c : ascii) :
  Str.init (s ++ String c EmptyString) = s.
Proof.
  induction s as [|a s IH]; [reflexivity|].
  change (String a s ++ String c EmptyString)
    with (String a (s ++ String c EmptyString)).
  cbn [Str.init]. rewrite IH. destruct s; reflexivity.
Qed.

Lemma test_quoted_quote (inner : string) :
  Str.test_quoted (Text.quote inner) = Str.nonempty inner.
Proof.
  destruct inner as [|b inner]; [reflexivity|].
  unfold Text.quote.
  change (String b inner ++ String Str.dquote EmptyString)
    with (String b (inner ++ String Str.dquote EmptyString)).
  cbn [Str.test_quoted]. rewrite last_snoc. reflexivity.
Qed.

Lemma slice_quote (inner : string) : Str.slice_1_m1 (Text.quote inner) = inner.
Proof. apply init_snoc. Qed.

(** X6. When the words are quoted and the word of a WORD argument,
    trimmed, is a text between double quotes, the resolver receives the
    text without the two quotes if the text has one code unit or more;
    a pair of quotes with nothing between them is given as it stands,
    with the white space around it. *)
Theorem word_unquoted :
  forall (noPrefixWords : list string) (arg : Argument) (index : Z)
         (w inner : string),
    item noPrefixWords (index_or arg index) = Some w ->
    Str.trim w = Text.quote inner ->
    parseWORD true noPrefixWords arg index
    = process_bind arg (if Str.nonempty inner then inner else w).
Proof.
  intros noPrefixWords arg index w inner Hw Ht.
  unfold parseWORD, unquote. rewrite Hw, Ht, test_quoted_quote, slice_quote.
  reflexivity.
Qed.

(** ** The window of words *)

Lemma firstn_skipn_all {A} (l : list A) (k n : nat) :
  (length l <= k + n)%nat -> firstn n (skipn k l) = skipn k l.
Proof. intros H. apply firstn_all2. rewrite length_skipn. lia. Qed.

(** X7. For an index and a limit that are not negative, the window that
    REST, SEPARATE, TEXT and CONTENT take is made of the [limit] words
    from the word of rank [index] on, or of as many as there are; with
    the limit [Infinity] it is made of all the words from that rank on. *)
Theorem window_from_index :
  forall (A : Type) (l : list A) (index n : Z),
    0 <= index -> 0 <= n ->
    slice index (add_limit index (Finite n)) l
    = firstn (Z.to_nat n) (skipn (Z.to_nat index) l)
    /\ slice index (add_limit index Infinity) l = skipn (Z.to_nat index) l.
Proof.
  intros A l index n Hi Hn. unfold slice, add_limit.
  destruct (index <? 0) eqn:E1; [lia|].
  destruct (index + n <? 0) eqn:E2; [lia|].
  apply Z.ltb_ge in E1, E2.
  destruct (Z_le_gt_dec index (Z.of_nat (length l))) as [Hle|Hgt].
  - rewrite (Z.min_l index) by lia. split.
    + destruct (Z_le_gt_dec (index + n) (Z.of_nat (length l))) as [Hle'|Hgt'].
      * rewrite Z.min_l by lia. f_equal. lia.
      * rewrite Z.min_r by lia.
        rewrite !firstn_skipn_all by lia. reflexivity.
    + apply firstn_skipn_all. lia.
  - rewrite (Z.min_r index) by lia.
    assert (Hs : forall k, (length l <= k)%nat -> skipn k l = [])
      by (intros k Hk; apply skipn_all2; exact Hk).
    rewrite !Hs by lia. rewrite !firstn_nil. auto.
Qed.

(** X8. A negative index counts from the end of the words: with the
    limit [Infinity] the window is made of the last [-index] words (all
    of them when there are fewer); but with a limit equal to [-index]
    the window is empty, since its end, [index + limit], is then 0. *)
Theorem window_negative_index :
  forall (A : Type) (l : list A) (index : Z),
    index < 0 ->
    slice index (add_limit index Infinity) l
    = skipn (length l - Z.to_nat (- index)) l
    /\ slice index (add_limit index (Finite (- index))) l = [].
Proof.
  intros A l index Hi. unfold slice, add_limit.
  destruct (index <? 0) eqn:E1; [|apply Z.ltb_ge in E1; lia].
  replace (index + - index) with 0 by lia. cbn [Z.ltb Z.compare].
  split.
  - replace (Z.to_nat (Z.max (Z.of_nat (length l) + index) 0))
      with (length l - Z.to_nat (- index))%nat by lia.
    apply firstn_skipn_all. lia.
  - rewrite Z.min_l by lia.
    replace (Z.to_nat (0 - Z.max (Z.of_nat (length l) + index) 0)) with O by lia.
    reflexivity.
Qed.

(** ** CONTENT and TEXT *)

(** X9. A CONTENT argument without index, or with index 0, and with the
    limit [Infinity] gives the resolver the content as it is, whatever
    the split method; so does a TEXT argument when the split method is
    [split] and no word of the content was taken out as a prefix or a
    flag. *)
Theorem content_as_it_is :
  forall (this : Command) (content : string) (arg : Argument) (index : Z),
    arg_index arg = None \/ arg_index arg = Some 0 ->
    arg_limit arg = Infinity ->
    parseCONTENT content arg index = process_bind arg content
    /\ (split this = SplitName ArgumentSplits.SPLIT ->
        parseTEXT this (splitFuncs ArgumentSplits.SPLIT content) arg index
        = process_bind arg content).
Proof.
  intros this content arg index Hi Hl.
  assert (Hs : forall l : list string, slice 0 (add_limit 0 Infinity) l = l).
  { intros l. unfold slice, add_limit. simpl.
    rewrite Z.min_l by lia. rewrite Z.sub_0_r, Nat2Z.id. apply firstn_all. }
  unfold parseCONTENT, parseTEXT, joiner.
  assert (E : match arg_index arg with Some i => i | None => 0 end = 0)
    by (destruct Hi as [-> | ->]; reflexivity).
  rewrite E, Hl, !Hs. split.
  - now rewrite join_split.
  - intros ->. cbn [splitFuncs]. now rewrite join_split.
Qed.

(** ** Lower case *)

Lemma lower_char_idem (c : ascii) :
  Str.lower_char (Str.lower_char c) = Str.lower_char c.
Proof. destruct c as [[] [] [] [] [] [] [] []]; reflexivity. Qed.

Lemma toLowerCase_is_lower (s : string) : Text.is_lower (Str.toLowerCase s).
Proof.
  unfold Text.is_lower. induction s as [|c s IH]; [reflexivity|].
  cbn [Str.toLowerCase]. now rewrite lower_char_idem, IH.
Qed.

Lemma is_lower_cons (c : ascii) (s : string) :
  Text.is_lower (String c s) -> Str.lower_char c = c /\ Text.is_lower s.
Proof. unfold Text.is_lower. cbn [Str.toLowerCase]. intros H. now injection H. Qed.

Lemma is_lower_String (c : ascii) (s : string) :
  Str.lower_char c = c -> Text.is_lower s -> Text.is_lower (String c s).
Proof.
  unfold Text.is_lower. cbn [Str.toLowerCase]. intros -> ->. reflexivity.
Qed.

Lemma is_lower_drop (n : nat) (s : string) :
  Text.is_lower s -> Text.is_lower (Str.drop n s).
Proof.
  revert s. induction n as [|n IH]; intros s H; [exact H|].
  destruct s as [|c s]; [exact H|]. apply is_lower_cons in H as [_ H].
  apply IH, H.
Qed.

Lemma is_lower_trimStart (s : string) :
  Text.is_lower s -> Text.is_lower (Str.trimStart s).
Proof.
  induction s as [|c s IH]; intros H; [exact H|]. cbn [Str.trimStart].
  destruct (Str.is_space c); [|exact H].
  apply is_lower_cons in H as [_ H]. apply IH, H.
Qed.

Lemma is_lower_trimEnd (s : string) :
  Text.is_lower s -> Text.is_lower (Str.trimEnd s).
Proof.
  induction s as [|c s IH]; intros H; [exact H|]. cbn [Str.trimEnd].
  apply is_lower_cons in H as [Hc H]. specialize (IH H).
  destruct (Str.trimEnd s).
  - destruct (Str.is_space c); [reflexivity|]. now apply is_lower_String.
  - now apply is_lower_String.
Qed.

Lemma is_lower_init (s : string) :
  Text.is_lower s -> Text.is_lower (Str.init s).
Proof.
  induction s as [|c s IH]; intros H; [exact H|]. cbn [Str.init].
  apply is_lower_cons in H as [Hc H]. specialize (IH H).
  destruct s; [reflexivity|]. now apply is_lower_String.
Qed.

Lemma is_lower_replace (s pat : string) :
  Text.is_lower s -> Text.is_lower (Str.replace_empty s pat).
Proof.
  induction s as [|c s IH]; intros H; cbn [Str.replace_empty].
  - destruct (Str.startsWith _ _); [apply is_lower_drop|]; exact H.
  - destruct (Str.startsWith _ _); [apply is_lower_drop; exact H|].
    apply is_lower_cons in H as [Hc H]. apply is_lower_String; auto.
Qed.

Lemma is_lower_unquote (isQuoted : bool) (s : string) :
  Text.is_lower s -> Text.is_lower (unquote isQuoted s).
Proof.
  intros H. unfold unquote. destruct (_ && _); [|exact H].
  unfold Str.slice_1_m1, Str.trim.
  pose proof (is_lower_trimEnd _ (is_lower_trimStart _ H)) as Ht.
  destruct (Str.trimEnd (Str.trimStart s)) as [|c r]; [reflexivity|].
  apply is_lower_cons in Ht as [_ Ht]. apply is_lower_init, Ht.
Qed.

Lemma prefix_loop_lower (arg : Argument) (ws : list string) p word :
  prefix_loop arg ws = Some (p, word) -> Text.is_lower word.
Proof.
  induction ws as [|w ws IH]; [discriminate|]. cbn [prefix_loop].
  destruct (arg_prefix arg) as [v|vs].
  - destruct (Str.startsWith _ _); [|exact IH].
    intros H. injection H as _ <-. apply toLowerCase_is_lower.
  - destruct (List.find _ vs); [|exact IH].
    intros H. injection H as _ <-. apply toLowerCase_is_lower.
Qed.

(** X10. What the PREFIX function gives to the resolver is always in
    lower case: the word is taken in its lower-case form, so the case in
    which the text after the prefix was written is lost. *)
Theorem prefix_word_lower :
  forall (words : list string) (isQuoted : bool) (arg : Argument),
    Str.toLowerCase (prefix_word words isQuoted arg)
    = prefix_word words isQuoted arg.
Proof.
  intros words isQuoted arg. fold (Text.is_lower (prefix_word words isQuoted arg)).
  unfold prefix_word.
  destruct (prefix_loop arg (rev words)) as [[p word]|] eqn:E; [|reflexivity].
  apply prefix_loop_lower in E.
  destruct (_ && _); [|exact E].
  apply is_lower_unquote, is_lower_replace, E.
Qed.

(** ** Words in another case *)

Lemma prefix_loop_normal (arg : Argument) (ws ws' : list string) :
  map Text.normal ws = map Text.normal ws' ->
  prefix_loop arg ws = prefix_loop arg ws'.
Proof.
  revert ws'. induction ws as [|w ws IH]; intros [|w' ws'] H;
    try discriminate; [reflexivity|].
  cbn [map] in H. injection H as Hw H. unfold Text.normal in Hw.
  cbn [prefix_loop]. rewrite Hw, (IH _ H). reflexivity.
Qed.

Lemma flag_loop_normal (arg : Argument) (ws ws' : list string) (found : bool) :
  map Text.normal ws = map Text.normal ws' ->
  flag_loop arg ws found = flag_loop arg ws' found.
Proof.
  revert ws' found. induction ws as [|w ws IH]; intros [|w' ws'] found H;
    try discriminate; [reflexivity|].
  cbn [map] in H. injection H as Hw H. unfold Text.normal in Hw.
  cbn [flag_loop]. rewrite Hw.
  destruct (arg_prefix arg); [destruct (String.eqb _ _)|]; auto.
Qed.

(** X11. PREFIX and FLAG look at the words through their trimmed,
    lower-case forms only: two lists of words that have the same such
    forms give the same word to the resolver of a PREFIX argument and the
    same answer for a flag, so that a prefix or a flag is recognised
    whatever its case and the white space around it. *)
Theorem prefix_flag_normal :
  forall (words words' : list string) (isQuoted : bool) (arg : Argument)
         (index : Z),
    map Text.normal words = map Text.normal words' ->
    parsePREFIX words isQuoted arg index = parsePREFIX words' isQuoted arg index
    /\ parseFLAG words arg index = parseFLAG words' arg index.
Proof.
  intros words words' isQuoted arg index H.
  assert (Hr : map Text.normal (rev words) = map Text.normal (rev words'))
    by (rewrite !map_rev; now f_equal).
  split.
  - unfold parsePREFIX, prefix_word. now rewrite (prefix_loop_normal arg _ _ Hr).
  - unfold parseFLAG. now rewrite (flag_loop_normal arg _ _ false Hr).
Qed.

(** ** Words kept for the positional arguments *)

Lemma getPrefixes_descriptors (this : Command) :
  _getPrefixes this = flat_map spec_descriptors_of (flat_args (args this)).
Proof. unfold _getPrefixes. now rewrite getPrefixes_from. Qed.

Lemma filter_all {A} (f : A -> bool) (l : list A) :
  (forall x, In x l -> f x = true) -> List.filter f l = l.
Proof.
  induction l as [|x l IH]; intros H; [reflexivity|]. cbn [List.filter].
  rewrite (H x (or_introl eq_refl)), IH; [reflexivity|].
  intros y Hy. apply H. now right.
Qed.

(** X12. When no argument of the command, alone or in a group, has
    PREFIX or FLAG as its match type, no word is taken out: the
    positional arguments see every word of the content. *)
Theorem no_marker_no_filter :
  forall (this : Command) (words : list string),
    (forall arg, In arg (flat_args (args this)) ->
                 arg_match arg <> Static ArgumentMatches.PREFIX
                 /\ arg_match arg <> Static ArgumentMatches.FLAG) ->
    noPrefix (_getPrefixes this) words = words.
Proof.
  intros this words H. rewrite getPrefixes_descriptors.
  assert (E : flat_map spec_descriptors_of (flat_args (args this)) = []).
  { induction (flat_args (args this)) as [|a l IH]; [reflexivity|].
    cbn [flat_map]. rewrite IH by (intros arg Hin; apply H; now right).
    destruct (H a (or_introl eq_refl)) as [Hp Hf].
    unfold spec_descriptors_of.
    destruct (arg_match a) as [[]|]; try reflexivity; congruence. }
  rewrite E. apply filter_all. reflexivity.
Qed.

(** X13. A word that a PREFIX argument of the command can match, or that
    is the flag of a FLAG argument of the command, is never among the
    words kept for the positional arguments: WORD, REST, SEPARATE and
    TEXT cannot take it. *)
Theorem marker_not_positional :
  forall (this : Command) (words : list string) (arg : Argument) (w v : string),
    In arg (flat_args (args this)) ->
    In v (prefix_values (arg_prefix arg)) ->
    (arg_match arg = Static ArgumentMatches.PREFIX
     /\ Str.startsWith (Text.normal w) (Str.toLowerCase v) = true)
    \/ (arg_match arg = Static ArgumentMatches.FLAG
        /\ Text.normal w = Str.toLowerCase v) ->
    ~ In w (noPrefix (_getPrefixes this) words).
Proof.
  intros this words arg w v Harg Hv Hhit Hin.
  unfold noPrefix in Hin. apply filter_In in Hin as [_ Hkeep].
  unfold keep_word in Hkeep. apply negb_true_iff in Hkeep.
  assert (Hex : existsb (hits (Str.trim w)) (_getPrefixes this) = true);
    [|congruence].
  apply existsb_exists. rewrite getPrefixes_descriptors.
  destruct Hhit as [[Hm Hs]|[Hm He]].
  - exists {| entry_value := Str.toLowerCase v; entry_flag := false |}. split.
    + apply in_flat_map. exists arg. split; [exact Harg|].
      unfold spec_descriptors_of. rewrite Hm.
      exact (in_map (fun v => {| entry_value := Str.toLowerCase v;
                                 entry_flag := false |}) _ _ Hv).
    + exact Hs.
  - exists {| entry_value := Str.toLowerCase v; entry_flag := true |}. split.
    + apply in_flat_map. exists arg. split; [exact Harg|].
      unfold spec_descriptors_of. rewrite Hm.
      exact (in_map (fun v => {| entry_value := Str.toLowerCase v;
                                 entry_flag := true |}) _ _ Hv).
    + unfold hits. cbn. unfold Text.normal in He. rewrite He.
      apply String.eqb_refl.
Qed.

(** ** Groups of arguments *)

(** X14. For a group of arguments, [allow] is called on the arguments in
    their order, each time with the same mapping, up to the one that is
    chosen, and the arguments after it are not asked.  When none is
    chosen all have been asked. *)
Theorem first_allowed :
  forall (message : Message) (alts : list Argument)
         (processed : gmap string value) (s : Sys),
    exists n : nat,
      (n <= length alts)%nat
      /\ trace (snd (find_allowed message alts processed s))
         = (trace s
            ++ map (fun a => AllowCall (arg_id a) processed) (firstn n alts))%list
      /\ match fst (find_allowed message alts processed s) with
         | Resolved (Some a) => (0 < n)%nat /\ nth_error alts (n - 1) = Some a
         | Resolved None => n = length alts
         | Rejected _ => False
         end.
Proof.
  intros message alts processed. induction alts as [|a alts IH]; intros s.
  - exists O. simpl. rewrite app_nil_r. auto.
  - cbn [find_allowed]. unfold bind, allow_call, call.
    destruct (arg_allow a message processed (world s)) as [[|] w].
    + exists 1%nat. simpl. repeat split; lia.
    + destruct (IH {| world := w;
                      trace := (trace s ++ [AllowCall (arg_id a) processed])%list |})
        as (n & Hn & Ht & Hr).
      exists (S n). split; [simpl; lia|]. split.
      * rewrite Ht. simpl. now rewrite <- app_assoc.
      * destruct (fst (find_allowed message alts processed _)) as [[b|]|e];
          [|simpl; lia|exact Hr].
        destruct Hr as [Hpos Hnth]. split; [lia|].
        destruct n as [|n]; [lia|]. simpl in *. now rewrite Nat.sub_0_r in Hnth.
Qed.

(** ** The keys of the result mapping *)

Lemma process_bind_frame (arg : Argument) word msg processed (s : Sys) v p' s' :
  process_bind arg word msg processed s = (Resolved (v, p'), s') -> p' = processed.
Proof.
  unfold process_bind, bind, ret.
  destruct (process_call arg word msg processed s) as [[v0|e] s0]; [|discriminate].
  intros H. now injection H.
Qed.

Lemma separate_loop_frame (arg : Argument) msg tokens res processed (s : Sys)
    res' p' s' (id : string) :
  separate_loop arg msg tokens res processed s = (Resolved (res', p'), s') ->
  id <> arg_id arg -> p' !! id = processed !! id.
Proof.
  revert res processed s.
  induction tokens as [|token tokens IH]; intros res processed s; simpl.
  - unfold ret. intros H Hid. now injection H as _ <- _.
  - unfold bind.
    destruct (process_call arg token msg processed s) as [[v|e] s0]; [|discriminate].
    intros H Hid. rewrite (IH _ _ _ H Hid). now apply lookup_insert_ne.
Qed.

Lemma parseFuncs_frame (this : Command) content words isQuoted noPrefixWords
    matchType parseFunc (arg : Argument) index msg processed (s : Sys)
    v p' s' (id : string) :
  parseFuncs this content words isQuoted noPrefixWords matchType = Some parseFunc ->
  parseFunc arg index msg processed s = (Resolved (v, p'), s') ->
  id <> arg_id arg -> p' !! id = processed !! id.
Proof.
  intros Hpf H Hid.
  destruct matchType; simpl in Hpf; try discriminate; injection Hpf as <-;
    try (apply process_bind_frame in H; now subst).
  - unfold parseSEPARATE in H. destruct (slice _ _ _).
    + apply process_bind_frame in H. now subst.
    + unfold bind in H.
      destruct (separate_loop _ _ _ _ _ s) as [[[res p1]|e] s1] eqn:E;
        [|discriminate].
      unfold ret in H. injection H as _ <- _.
      rewrite (separate_loop_frame _ _ _ _ _ _ _ _ _ id E Hid).
      now apply lookup_insert_ne.
  - unfold parseFLAG, bind, call, ret in H.
    destruct (arg_default arg msg processed (world s)). now injection H as _ <- _.
Qed.

Lemma evaluate_frame (this : Command) content message words isQuoted noPrefixWords
    (arg : Argument) wordIndex processed (s : Sys) wordIndex' p' s' :
  evaluate this content message words isQuoted noPrefixWords arg wordIndex processed s
  = (Resolved (wordIndex', p'), s') ->
  is_Some (p' !! arg_id arg)
  /\ forall id, id <> arg_id arg -> p' !! id = processed !! id.
Proof.
  unfold evaluate, bind.
  destruct (match_type message arg processed s) as [[m|e] s0]; [|discriminate].
  destruct (parseFuncs this content words isQuoted noPrefixWords m) as [pf|] eqn:Hpf;
    [|discriminate].
  destruct (pf arg wordIndex message processed s0) as [[[res p1]|e] s1] eqn:E;
    [|discriminate].
  unfold ret. intros H. injection H as _ <- _. split.
  - rewrite lookup_insert_eq. eauto.
  - intros id Hid. rewrite lookup_insert_ne by congruence.
    eapply parseFuncs_frame; eassumption.
Qed.

Lemma step_frame (this : Command) content message words isQuoted noPrefixWords
    (slot : Slot) wordIndex processed (s : Sys) wordIndex' p' s' :
  step send this content message words isQuoted noPrefixWords slot wordIndex processed s
  = (Resolved (wordIndex', p'), s') ->
  (forall id, is_Some (processed !! id) -> is_Some (p' !! id))
  /\ forall id, (forall arg, In arg (flat_args [slot]) -> arg_id arg <> id) ->
                p' !! id = processed !! id.
Proof.
  assert (Hev : forall (arg : Argument) s0,
             In arg (flat_args [slot]) ->
             evaluate this content message words isQuoted noPrefixWords
                      arg wordIndex processed s0
             = (Resolved (wordIndex', p'), s') ->
             (forall id, is_Some (processed !! id) -> is_Some (p' !! id))
             /\ forall id, (forall arg, In arg (flat_args [slot]) -> arg_id arg <> id) ->
                           p' !! id = processed !! id).
  { intros arg s0 Hin H. apply evaluate_frame in H as [Hsome Hother]. split.
    - intros id Hid. destruct (decide (id = arg_id arg)) as [->|Hne];
        [exact Hsome|]. now rewrite Hother.
    - intros id Hid. apply Hother. intros ->. now apply (Hid arg). }
  assert (Hsame : (Resolved (wordIndex, processed), s)
                  = (Resolved (wordIndex', p'), s') ->
                  (forall id, is_Some (processed !! id) -> is_Some (p' !! id))
                  /\ forall id, (forall arg, In arg (flat_args [slot]) -> arg_id arg <> id) ->
                                p' !! id = processed !! id).
  { intros H. injection H as _ <- _. auto. }
  destruct slot as [arg|alts|f]; simpl.
  - unfold bind. destruct (allow_call message arg processed s) as [[[|]|e] s0];
      try discriminate.
    + apply Hev. simpl. auto.
    + unfold ret. intros H. injection H as _ <- _. auto.
  - unfold bind.
    destruct (find_allowed message alts processed s) as [[[arg|]|e] s0] eqn:E;
      try discriminate.
    + apply Hev. simpl. rewrite app_nil_r. eapply find_allowed_in, E.
    + unfold ret. intros H. injection H as _ <- _. auto.
  - unfold cancel_slot, bind, call.
    destruct (f message processed (world s)) as [cancel w].
    destruct (negb (nullish cancel) && negb (is_bool false cancel)).
    + destruct (truthy cancel && negb (is_bool true cancel)); simpl;
        [destruct (send message cancel w)|]; discriminate.
    + unfold ret. intros H. injection H as _ <- _. auto.
Qed.

Lemma process_frame (this : Command) content message words isQuoted noPrefixWords
    (slots : list Slot) wordIndex processed (s : Sys) wordIndex' p' s' :
  process send this content message words isQuoted noPrefixWords
          slots wordIndex processed s
  = (Resolved (wordIndex', p'), s') ->
  (forall id, is_Some (processed !! id) -> is_Some (p' !! id))
  /\ forall id, (forall arg, In arg (flat_args slots) -> arg_id arg <> id) ->
                p' !! id = processed !! id.
Proof.
  revert wordIndex processed s.
  induction slots as [|slot slots IH]; intros wordIndex processed s; simpl.
  - unfold ret. intros H. injection H as _ <- _. auto.
  - unfold bind.
    destruct (step send this content message words isQuoted noPrefixWords
                   slot wordIndex processed s) as [[[wi1 p1]|e] s1] eqn:Hs;
      [|discriminate].
    intros H. apply IH in H as [Hkeep Hother].
    apply step_frame in Hs as [Hkeep1 Hother1]. split.
    + auto.
    + intros id Hid. rewrite Hother, Hother1; [reflexivity| |].
      * intros arg Hin. apply Hid. apply in_or_app. left.
        simpl in Hin. now rewrite app_nil_r in Hin.
      * intros arg Hin. apply Hid. apply in_or_app. now right.
Qed.

(** X15. Along [process] no key of the mapping is ever removed, and a
    key that is the id of no argument of the slots gone through keeps the
    value it had.  So the mapping to which [parse] resolves has no other
    keys than ids of arguments of the command. *)
Theorem result_keys :
  forall (this : Command) (content : string) (message : Message),
    (forall words isQuoted noPrefixWords slots wordIndex processed (s : Sys)
            wordIndex' processed' s',
        process send this content message words isQuoted noPrefixWords
                slots wordIndex processed s
        = (Resolved (wordIndex', processed'), s') ->
        (forall id, is_Some (processed !! id) -> is_Some (processed' !! id))
        /\ (forall id, (forall arg, In arg (flat_args slots) -> arg_id arg <> id) ->
                       processed' !! id = processed !! id))
    /\ (forall (s : Sys) r s',
           parse send this content message s = (Resolved r, s') ->
           forall id, (forall arg, In arg (flat_args (args this)) -> arg_id arg <> id) ->
                      r !! id = None).
Proof.
  intros this content message. split.
  - intros. eapply process_frame; eassumption.
  - intros s r s'. unfold parse. destruct (args this) as [|slot slots] eqn:E.
    + unfold ret. intros H. injection H as <- _. intros id _. apply lookup_empty.
    + unfold bind.
      destruct (_splitText this content message s) as [[[ws|]|e] s1];
        [|discriminate|discriminate].
      destruct (process _ _ _ _ _ _ _ _ _ _ s1) as [[[wi p]|e] s2] eqn:Hp;
        [|discriminate].
      unfold ret. intros H. injection H as <- _. intros id Hid.
      apply process_frame in Hp as [_ Hother].
      rewrite (Hother id Hid). apply lookup_empty.
Qed.

(** ** A split option that names an inherited property *)

Lemma property_inherited (p : ObjectPrototype.t) :
  property (ObjectPrototype.key p) = Some (Inherited p).
Proof. destruct p; reflexivity. Qed.

(** X16. A split option that is the name of a property which
    [splitFuncs] inherits from [Object.prototype] never serves as a
    separator.  On a command with arguments [parse] then either fails
    with a [TypeError] straight after the call of [_splitText], before
    any function of an argument is called, or goes through the arguments
    without any word.  With [constructor], [toLocaleString], [toString],
    [valueOf], [__defineGetter__], [__defineSetter__] and [__proto__] it
    fails, whatever the content. *)
Theorem split_inherited :
  forall (this : Command) (content : string) (message : Message) (s : Sys)
         (p : ObjectPrototype.t),
    args this <> [] ->
    split this = SplitString (ObjectPrototype.key p) ->
    let s1 := {| world := world s; trace := (trace s ++ [SplitText content])%list |} in
    (parse send this content message s = (Rejected TypeError, s1)
     \/ parse send this content message s
        = (let (r, s') :=
             process send this content message [] false [] (args this) 0 ∅ s1 in
           (match r with
            | Resolved (_, processed) => Resolved processed
            | Rejected e => Rejected e
            end, s')))
    /\ (In p [ObjectPrototype.constructor; ObjectPrototype.toLocaleString;
              ObjectPrototype.toString; ObjectPrototype.valueOf;
              ObjectPrototype.defineGetter; ObjectPrototype.defineSetter;
              ObjectPrototype.proto] ->
        parse send this content message s = (Rejected TypeError, s1)).
Proof.
  intros this content message s p Hargs Hsplit s1.
  assert (Hq : forall ws, words_isQuoted ws = false -> quoting this ws = false).
  { intros ws Hws. unfold quoting. rewrite Hsplit, Hws. destruct p; reflexivity. }
  assert (Hrun : parse send this content message s
                 = match inherited p content with
                   | Resolved (Array ws) =>
                       let (r, s') :=
                         process send this content message (items ws) (quoting this ws)
                                 (noPrefix (_getPrefixes this) (items ws))
                                 (args this) 0 ∅ s1 in
                       (match r with
                        | Resolved (_, processed) => Resolved processed
                        | Rejected e => Rejected e
                        end, s')
                   | Resolved NotArray => (Rejected TypeError, s1)
                   | Rejected e => (Rejected e, s1)
                   end).
  { unfold parse. destruct (args this) as [|slot slots]; [congruence|].
    unfold bind, _splitText. rewrite Hsplit, property_inherited. unfold attempt.
    fold s1. destruct (inherited p content) as [[ws|]|e]; try reflexivity.
    destruct (process _ _ _ _ _ _ _ _ _ _ s1) as [[[wi pr]|e] s2]; reflexivity. }
  split.
  - rewrite Hrun. unfold inherited.
    destruct p;
      repeat match goal with |- context [if ?b then _ else _] => destruct b end;
      try (left; reflexivity);
      right; simpl; rewrite Hq by reflexivity; reflexivity.
  - intros Hin. rewrite Hrun. simpl in Hin.
    destruct Hin as [<-|[<-|[<-|[<-|[<-|[<-|[<-|[]]]]]]]]; reflexivity.
Qed.

(** ** Slots one after the other *)

(** X17. Going through a list of slots made of two parts is going
    through the first part and then, if that resolved, through the second
    from the cursor, the mapping and the state that the first part left;
    if the first part rejects, nothing of the second part is run. *)
Theorem process_app :
  forall (this : Command) (content : string) (message : Message)
         (words : list string) (isQuoted : bool) (noPrefixWords : list string)
         (slots1 slots2 : list Slot) (wordIndex : Z)
         (processed : gmap string value) (s : Sys),
    process send this content message words isQuoted noPrefixWords
            (slots1 ++ slots2) wordIndex processed s
    = match process send this content message words isQuoted noPrefixWords
                    slots1 wordIndex processed s with
      | (Resolved (wordIndex', processed'), s') =>
          process send this content message words isQuoted noPrefixWords
                  slots2 wordIndex' processed' s'
      | (Rejected e, s') => (Rejected e, s')
      end.
Proof.
  intros this content message words isQuoted noPrefixWords slots1 slots2.
  induction slots1 as [|slot slots1 IH]; intros wordIndex processed s.
  - reflexivity.
  - cbn [app process]. unfold bind.
    destruct (step send this content message words isQuoted noPrefixWords
                   slot wordIndex processed s) as [[[wi1 p1]|e] s1];
      [apply IH|reflexivity].
Qed.

(** ** Arguments after the last word *)

Lemma slice_beyond {A} (l : list A) (index : Z) (limit : Limit) :
  Z.of_nat (length l) <= index -> slice index (add_limit index limit) l = [].
Proof.
  intros H. unfold slice.
  destruct (index <? 0) eqn:E; [apply Z.ltb_lt in E; lia|].
  rewrite (Z.min_r index) by lia.
  rewrite Nat2Z.id, List.skipn_all. apply firstn_nil.
Qed.

(** X18. An argument whose index is past the last of the words kept for
    the positional arguments gets the empty string: the resolver of a
    WORD, REST or SEPARATE argument is then called with [''], once,
    whatever the limit. *)
Theorem beyond_last_word :
  forall (this : Command) (isQuoted : bool) (noPrefixWords : list string)
         (arg : Argument) (index : Z),
    Z.of_nat (length noPrefixWords) <= index_or arg index ->
    parseWORD isQuoted noPrefixWords arg index = process_bind arg EmptyString
    /\ parseREST this noPrefixWords arg index = process_bind arg EmptyString
    /\ parseSEPARATE noPrefixWords arg index = process_bind arg EmptyString.
Proof.
  intros this isQuoted noPrefixWords arg index H.
  unfold parseWORD, parseREST, parseSEPARATE.
  rewrite slice_beyond by exact H. repeat split.
  unfold item. destruct (index_or arg index <? 0) eqn:E.
  - unfold unquote. now rewrite andb_false_r.
  - assert (Hn : nth_error noPrefixWords (Z.to_nat (index_or arg index)) = None)
      by (apply nth_error_None; lia).
    rewrite Hn. unfold unquote. now rewrite andb_false_r.
Qed.

(** ** Contents made of white space *)

Lemma plain_blank (s : string) :
  Text.all Str.is_space s = true -> Tokenizer.plain EmptyString s = [].
Proof.
  induction s as [|c s IH]; [reflexivity|]. cbn [Text.all Tokenizer.plain].
  intros H. apply andb_prop in H as [-> H]. apply IH, H.
Qed.

Lemma quoted_blank (s : string) :
  Text.all Str.is_space s = true ->
  Tokenizer.quoted Tokenizer.Idle EmptyString s = [].
Proof.
  induction s as [|c s IH]; [reflexivity|]. cbn [Text.all Tokenizer.quoted].
  intros H. apply andb_prop in H as [-> H]. apply IH, H.
Qed.

Lemma sticky_blank (s : string) :
  Text.all Str.is_space s = true ->
  Tokenizer.sticky Tokenizer.Idle EmptyString s = [].
Proof.
  induction s as [|c s IH]; [reflexivity|]. cbn [Text.all Tokenizer.sticky].
  intros H. apply andb_prop in H as [-> H]. apply IH, H.
Qed.

(** X19. A content made of white space only, the empty content among
    them, has no word under the plain, quoted and sticky split methods;
    under the method [none] it is one word, the content itself. *)
Theorem blank_content :
  forall (content : string),
    Text.all Str.is_space content = true ->
    splitFuncs ArgumentSplits.PLAIN content = []
    /\ splitFuncs ArgumentSplits.QUOTED content = []
    /\ splitFuncs ArgumentSplits.STICKY content = []
    /\ splitFuncs ArgumentSplits.NONE content = [content].
Proof.
  intros content H. cbn [splitFuncs].
  rewrite plain_blank, quoted_blank, sticky_blank by exact H. auto.
Qed.

(** ** REST with the plain method *)

Lemma plain_join (s cur : string) :
  Str.join EmptyString (Tokenizer.plain cur s)
  = cur ++ Text.collapse (Str.nonempty cur) s.
Proof.
  revert cur. induction s as [|c r IH]; intros cur; cbn [Tokenizer.plain Text.collapse].
  - unfold Tokenizer.flush. destruct cur; [reflexivity|].
    simpl. now rewrite append_nil_r.
  - destruct (Str.is_space c).
    + destruct (Str.nonempty cur) eqn:Hn.
      * rewrite join_empty_cons, IH, snoc_append. reflexivity.
      * rewrite IH. destruct cur; [reflexivity|discriminate].
    + rewrite IH, snoc_append, nonempty_snoc. reflexivity.
Qed.

(** X20. With the plain split method, when no word of the content is
    taken out as a prefix or a flag, a REST or a TEXT argument read from
    the first word with the limit [Infinity] gives the resolver the
    content without its leading white space and with every run of white
    space reduced to its first code unit. *)
Theorem rest_plain :
  forall (this : Command) (content : string) (arg : Argument) (index : Z),
    split this = SplitName ArgumentSplits.PLAIN ->
    arg_limit arg = Infinity ->
    (index_or arg index = 0 ->
     parseREST this (splitFuncs ArgumentSplits.PLAIN content) arg index
     = process_bind arg (Text.collapse false content))
    /\ (arg_index arg = None \/ arg_index arg = Some 0 ->
        parseTEXT this (splitFuncs ArgumentSplits.PLAIN content) arg index
        = process_bind arg (Text.collapse false content)).
Proof.
  intros this content arg index Hsp Hl.
  assert (Hs : forall l : list string, slice 0 (add_limit 0 Infinity) l = l).
  { intros l. unfold slice, add_limit. simpl.
    rewrite Z.min_l by lia. rewrite Z.sub_0_r, Nat2Z.id. apply firstn_all. }
  unfold parseREST, parseTEXT, joiner. rewrite Hsp, Hl. split.
  - intros ->. rewrite Hs. cbn [splitFuncs]. now rewrite plain_join.
  - intros Hi.
    assert (E : match arg_index arg with Some i => i | None => 0 end = 0)
      by (destruct Hi as [-> | ->]; reflexivity).
    rewrite E, Hs. cbn [splitFuncs]. now rewrite plain_join.
Qed.

End Further.

(** * The properties on examples *)

Section Examples.

Import Sample.

(** The words of the built-in split methods. *)
Example plain_example :
  splitFuncs ArgumentSplits.PLAIN "a  b   c" = ["a "; "b "; "c"].
Proof. reflexivity. Qed.

Example quoted_example :
  splitFuncs ArgumentSplits.QUOTED ("say " ++ quote "hello world" ++ " key=" ++ quote "a b")
  = ["say "; quote "hello world" ++ " "; "key=" ++ dq ++ "a "; "b" ++ dq].
Proof. reflexivity. Qed.

Example sticky_example :
  splitFuncs ArgumentSplits.STICKY ("say " ++ quote "hello world" ++ " key=" ++ quote "a b")
  = ["say "; quote "hello world" ++ " "; "key=" ++ quote "a b"].
Proof. reflexivity. Qed.

(** A quoted word is given to the resolver without its quotes. *)
Example quoted_word_example :
  fst (parse send say ("say " ++ quote "hello world") tt start)
  = Resolved (<["text" := VStr "hello world"]> ∅).
Proof. reflexivity. Qed.

(** Two word arguments take the first two words; the words of the plain
    method keep the blank that follows them. *)
Example two_words_example :
  fst (parse send
         {| args := [Single (arg "arg0" ArgumentMatches.WORD (PrefixStr EmptyString));
                     Single (arg "arg1" ArgumentMatches.WORD (PrefixStr EmptyString))];
            split := SplitName ArgumentSplits.PLAIN |}
         "a  b   c" tt start)
  = Resolved (<["arg1" := VStr "b "]> (<["arg0" := VStr "a "]> ∅)).
Proof. reflexivity. Qed.

Local Abbreviation run :=
  (process send command "1 2 3" tt ["1 "; "2 "; "3 "] false ["1 "; "2 "; "3 "]).

(** A cancel function that returns a text: the text is sent once and
    [verbose], the slot after it, is not looked at. *)
Lemma cancel_probe_witness :
  abort tt ∅ (world start) = (VStr "aborted", O)
  /\ run [Cancel abort; Single verbose] 0 ∅ start
     = (Rejected COMMAND_CANCELLED,
        {| world := O; trace := [CancelCall ∅; Send (VStr "aborted")] |}).
Proof.
  split; [reflexivity|].
  apply (cancel_probe_spec send command "1 2 3" tt ["1 "; "2 "; "3 "] false
           ["1 "; "2 "; "3 "] abort [Single verbose] 0 ∅ start (VStr "aborted") O);
    [reflexivity|reflexivity|discriminate].
Defined.

(** A cancel function that returns 0: the parse is cancelled and nothing
    is sent. *)
Lemma cancel_falsy_witness :
  zero tt ∅ (world start) = (VNum 0, O)
  /\ run [Cancel zero; Single verbose] 0 ∅ start
     = (Rejected COMMAND_CANCELLED, {| world := O; trace := [CancelCall ∅] |}).
Proof.
  split; [reflexivity|].
  apply (cancel_falsy_spec send command "1 2 3" tt ["1 "; "2 "; "3 "] false
           ["1 "; "2 "; "3 "] zero [Single verbose] 0 ∅ start (VNum 0) O);
    [reflexivity|discriminate|discriminate|discriminate|reflexivity].
Defined.

(** The flag [--verbose] with a default of [false]: the flag is found in
    the words and the argument resolves to [true]. *)
Lemma flag_witness :
  arg_default verbose tt ∅ (world start) = (VBool false, O)
  /\ parseFLAG ["say "; "--Verbose "; "hi"] verbose 0 tt ∅ start
     = (Resolved (VBool true, ∅),
        {| world := O; trace := [DefaultCall "verbose" ∅] |}).
Proof.
  split; [reflexivity|].
  exact (proj1 (flag_spec ["say "; "--Verbose "; "hi"] verbose 0 tt ∅ start
                  (VBool false) O eq_refl)).
Defined.

(** A prefix in lower case: the last word that starts with it is taken,
    in lower case, and the prefix is removed. *)
Lemma prefix_witness :
  (forall v, In v (prefix_values (arg_prefix color)) -> Str.toLowerCase v = v)
  /\ prefix_word ["color:blue "; "hi "; "Color:RED"] false color = "red".
Proof.
  assert (H : forall v, In v (prefix_values (arg_prefix color)) -> Str.toLowerCase v = v)
    by (intros v [<-|[]]; reflexivity).
  split; [exact H|].
  apply (eq_trans (proj1 (proj2 (prefix_spec ["color:blue "; "hi "; "Color:RED"]
                                   false color H)))).
  reflexivity.
Defined.

(** The rest of a word after its prefix is not trimmed: here the words
    come from a split function that keeps [p: x] as one word and sets
    [isQuoted]; the resolver receives the rest with its leading blank,
    where the specification has it trimmed. *)
Lemma prefix_rest_not_trimmed :
  prefix_word ["p: x"] true label = " x"
  /\ spec_prefix_word true label ["p: x"] = "x"
  /\ prefix_word ["p: x"] true label <> spec_prefix_word true label ["p: x"].
Proof. repeat split. discriminate. Qed.

(** A prefix value with an upper case letter is found in the word, which
    was put in lower case, but is not removed from it. *)
Example prefix_upper_case_kept :
  prefix_word ["Color:red"] false loud = "color:red".
Proof. reflexivity. Qed.

(** A window of three tokens: three calls of the resolver, in order, and
    the array of the three values under the id of the argument. *)
Lemma separate_witness :
  arg_match numbers = Static ArgumentMatches.SEPARATE
  /\ evaluate command "1 2 3" tt ["1 "; "2 "; "3 "] false ["1 "; "2 "; "3 "]
              numbers 0 ∅ start
     = (Resolved (1, <["numbers" := VArr [VStr "1 "; VStr "2 "; VStr "3 "]]> ∅),
        {| world := 3%nat;
           trace := [ProcessCall "numbers" "1 " (<["numbers" := VArr []]> ∅);
                     ProcessCall "numbers" "2 " (<["numbers" := VArr [VStr "1 "]]> ∅);
                     ProcessCall "numbers" "3 "
                       (<["numbers" := VArr [VStr "1 "; VStr "2 "]]> ∅)] |}).
Proof.
  split; [reflexivity|].
  assert (H : resolves_in_order numbers tt ∅ [] ["1 "; "2 "; "3 "] O
                [VStr "1 "; VStr "2 "; VStr "3 "] 3%nat) by (repeat econstructor).
  assert (Hne : ["1 "; "2 "; "3 "] <> []) by discriminate.
  exact (proj1 (proj1 (proj2 (separate_spec command "1 2 3" tt ["1 "; "2 "; "3 "]
                                false ["1 "; "2 "; "3 "] numbers 0 ∅ start eq_refl))
                      Hne [VStr "1 "; VStr "2 "; VStr "3 "] 3%nat H)).
Defined.

(** The call of the resolver for the third token of that window finds
    the first two values under the id of the argument. *)
Lemma separate_in_progress_witness :
  slice 0 Infinity ["1 "; "2 "; "3 "] !! 2%nat = Some "3 "
  /\ resolves_in_order numbers tt ∅ [] ["1 "; "2 "] O [VStr "1 "; VStr "2 "] 2%nat
  /\ exists seen_by_resolver,
      trace (snd (parseSEPARATE ["1 "; "2 "; "3 "] numbers 0 tt ∅ start)) !! 2%nat
      = Some (ProcessCall "numbers" "3 " seen_by_resolver)
      /\ seen_by_resolver !! "numbers" = Some (VArr [VStr "1 "; VStr "2 "]).
Proof.
  assert (H : resolves_in_order numbers tt ∅ [] ["1 "; "2 "] O
                [VStr "1 "; VStr "2 "] 2%nat) by (repeat econstructor).
  split; [reflexivity|]. split; [exact H|].
  destruct (separate_in_progress ["1 "; "2 "; "3 "] numbers 0 tt ∅ start 2%nat "3 "
              [VStr "1 "; VStr "2 "] 2%nat eq_refl H) as (p & Hcall & Hp & _).
  exists p. split; [exact Hcall|exact Hp].
Defined.

(** The functions of [command] are deterministic (the resolver counts its
    calls in the world but resolves to the word it is given), so a second
    parse of the same content, made after a first one, resolves to the
    same mapping. *)
Lemma parse_deterministic_witness :
  deterministic_command command
  /\ fst (parse send command "1 2 --verbose" tt
                (snd (parse send command "1 2 --verbose" tt start)))
     = fst (parse send command "1 2 --verbose" tt start).
Proof.
  assert (H : deterministic_command command).
  { split; [|exact I].
    repeat constructor; intros; intros w1 w2; reflexivity. }
  split; [exact H|].
  apply (proj2 (parse_deterministic send command "1 2 --verbose" tt H)).
Defined.

(** The words of a content under the plain method have the shape of
    plain words. *)
Lemma plain_words_shape_witness :
  In "b " (splitFuncs ArgumentSplits.PLAIN "a  b   c")
  /\ Text.plain_token "b ".
Proof.
  assert (H : In "b " (splitFuncs ArgumentSplits.PLAIN "a  b   c"))
    by (right; left; reflexivity).
  split; [exact H|]. exact (plain_words_shape "a  b   c" "b " H).
Defined.

(** A quoted text at the head of a content is one word. *)
Lemma quoted_segment_witness :
  Text.no_dquote "hello world" = true
  /\ splitFuncs ArgumentSplits.QUOTED (Text.quote "hello world" ++ " x")
     = [Text.quote "hello world" ++ " "; "x"].
Proof.
  split; [reflexivity|]. exact (quoted_segment "hello world" " x" eq_refl).
Defined.

(** A key glued to a quoted text is one word under the sticky method. *)
Lemma sticky_segment_witness :
  Text.bare "key=" = true
  /\ Text.no_dquote "a b" = true
  /\ splitFuncs ArgumentSplits.STICKY ("key=" ++ Text.quote "a b" ++ " c")
     = ["key=" ++ Text.quote "a b" ++ " "; "c"].
Proof.
  split; [reflexivity|]. split; [reflexivity|].
  exact (sticky_segment "key=" "a b" " c" eq_refl eq_refl).
Defined.

(** The same content under the quoted method is cut at the white space
    inside the quotes. *)
Lemma quoted_glued_witness :
  Ascii.eqb "k" Str.dquote = false
  /\ Text.no_blank ("key=" ++ String Str.dquote "a") = true
  /\ Str.is_space " " = true
  /\ splitFuncs ArgumentSplits.QUOTED ("key=" ++ Text.quote "a b")
     = [("key=" ++ String Str.dquote "a") ++ " "; "b" ++ String Str.dquote ""].
Proof.
  split; [reflexivity|]. split; [reflexivity|]. split; [reflexivity|].
  exact (quoted_glued "k" ("ey=" ++ String Str.dquote "a") " "
           ("b" ++ String Str.dquote "") eq_refl eq_refl eq_refl).
Defined.

(** A quoted word reaches the resolver without its quotes. *)
Lemma word_unquoted_witness :
  item [Text.quote "hello world" ++ " "]
       (index_or (Sample.arg "text" ArgumentMatches.WORD (PrefixStr "")) 0)
  = Some (Text.quote "hello world" ++ " ")
  /\ Str.trim (Text.quote "hello world" ++ " ") = Text.quote "hello world"
  /\ parseWORD true [Text.quote "hello world" ++ " "]
               (Sample.arg "text" ArgumentMatches.WORD (PrefixStr "")) 0
     = process_bind (Sample.arg "text" ArgumentMatches.WORD (PrefixStr ""))
                    "hello world".
Proof.
  split; [reflexivity|]. split; [reflexivity|].
  exact (word_unquoted [Text.quote "hello world" ++ " "]
           (Sample.arg "text" ArgumentMatches.WORD (PrefixStr "")) 0
           (Text.quote "hello world" ++ " ") "hello world" eq_refl eq_refl).
Defined.

(** Two words from the word of rank 1. *)
Lemma window_from_index_witness :
  0 <= 1 /\ 0 <= 2
  /\ slice 1 (add_limit 1 (Finite 2)) ["a"; "b"; "c"; "d"] = ["b"; "c"].
Proof.
  assert (H1 : 0 <= 1) by lia. assert (H2 : 0 <= 2) by lia.
  split; [exact H1|]. split; [exact H2|].
  exact (proj1 (window_from_index string ["a"; "b"; "c"; "d"] 1 2 H1 H2)).
Defined.

(** The index -2: the last two words with the limit [Infinity], no word
    with the limit 2. *)
Lemma window_negative_index_witness :
  -2 < 0
  /\ slice (-2) (add_limit (-2) Infinity) ["a"; "b"; "c"; "d"] = ["c"; "d"]
  /\ slice (-2) (add_limit (-2) (Finite 2)) ["a"; "b"; "c"; "d"] = [].
Proof.
  assert (H : -2 < 0) by lia. split; [exact H|].
  exact (window_negative_index string ["a"; "b"; "c"; "d"] (-2) H).
Defined.

(** A CONTENT argument receives the content with all its white space. *)
Lemma content_as_it_is_witness :
  (arg_index (Sample.arg "all" ArgumentMatches.CONTENT (PrefixStr "")) = None
   \/ arg_index (Sample.arg "all" ArgumentMatches.CONTENT (PrefixStr "")) = Some 0)
  /\ arg_limit (Sample.arg "all" ArgumentMatches.CONTENT (PrefixStr "")) = Infinity
  /\ parseCONTENT "a  b " (Sample.arg "all" ArgumentMatches.CONTENT (PrefixStr "")) 0
     = process_bind (Sample.arg "all" ArgumentMatches.CONTENT (PrefixStr "")) "a  b ".
Proof.
  split; [left; reflexivity|]. split; [reflexivity|].
  exact (proj1 (content_as_it_is Sample.command "a  b "
                  (Sample.arg "all" ArgumentMatches.CONTENT (PrefixStr "")) 0
                  (or_introl eq_refl) eq_refl)).
Defined.

(** The flag is found in the same way whatever its case. *)
Lemma prefix_flag_normal_witness :
  map Text.normal ["say "; "--Verbose "] = map Text.normal ["SAY"; "--verbose"]
  /\ parseFLAG ["say "; "--Verbose "] Sample.verbose 0
     = parseFLAG ["SAY"; "--verbose"] Sample.verbose 0.
Proof.
  split; [reflexivity|].
  exact (proj2 (prefix_flag_normal ["say "; "--Verbose "] ["SAY"; "--verbose"]
                  false Sample.verbose 0 eq_refl)).
Defined.

(** A command with a WORD argument only keeps every word. *)
Lemma no_marker_no_filter_witness :
  (forall arg, In arg (flat_args (args Sample.say)) ->
               arg_match arg <> Static ArgumentMatches.PREFIX
               /\ arg_match arg <> Static ArgumentMatches.FLAG)
  /\ noPrefix (_getPrefixes Sample.say) ["--verbose "; "x"] = ["--verbose "; "x"].
Proof.
  assert (H : forall arg, In arg (flat_args (args Sample.say)) ->
                          arg_match arg <> Static ArgumentMatches.PREFIX
                          /\ arg_match arg <> Static ArgumentMatches.FLAG)
    by (intros arg [<-|[]]; split; discriminate).
  split; [exact H|].
  exact (no_marker_no_filter Sample.say ["--verbose "; "x"] H).
Defined.

(** The flag of [command] is not a word for its positional argument. *)
Lemma marker_not_positional_witness :
  In Sample.verbose (flat_args (args Sample.command))
  /\ In "--verbose" (prefix_values (arg_prefix Sample.verbose))
  /\ ~ In "--Verbose " (noPrefix (_getPrefixes Sample.command) ["1 "; "--Verbose "]).
Proof.
  assert (H1 : In Sample.verbose (flat_args (args Sample.command)))
    by (right; left; reflexivity).
  assert (H2 : In "--verbose" (prefix_values (arg_prefix Sample.verbose)))
    by (left; reflexivity).
  split; [exact H1|]. split; [exact H2|].
  exact (marker_not_positional Sample.command ["1 "; "--Verbose "] Sample.verbose
           "--Verbose " "--verbose" H1 H2 (or_intror (conj eq_refl eq_refl))).
Defined.

(** A word argument read at index 1 when there is one word. *)
Lemma beyond_last_word_witness :
  Z.of_nat (length ["a "]) <= index_or Sample.second 0
  /\ parseWORD false ["a "] Sample.second 0 = process_bind Sample.second "".
Proof.
  assert (H : Z.of_nat (length ["a "]) <= index_or Sample.second 0)
    by (unfold index_or, Sample.second; simpl; lia).
  split; [exact H|].
  exact (proj1 (beyond_last_word Sample.command false ["a "] Sample.second 0 H)).
Defined.

(** Three blanks make no word. *)
Lemma blank_content_witness :
  Text.all Str.is_space "   " = true
  /\ splitFuncs ArgumentSplits.PLAIN "   " = [].
Proof.
  split; [reflexivity|]. exact (proj1 (blank_content "   " eq_refl)).
Defined.

(** A REST argument under the plain method. *)
Lemma rest_plain_witness :
  split Sample.command = SplitName ArgumentSplits.PLAIN
  /\ arg_limit (Sample.arg "rest" ArgumentMatches.REST (PrefixStr "")) = Infinity
  /\ parseREST Sample.command (splitFuncs ArgumentSplits.PLAIN "  a   b  c ")
               (Sample.arg "rest" ArgumentMatches.REST (PrefixStr "")) 0
     = process_bind (Sample.arg "rest" ArgumentMatches.REST (PrefixStr "")) "a b c ".
Proof.
  split; [reflexivity|]. split; [reflexivity|].
  exact (proj1 (rest_plain Sample.command "  a   b  c "
                  (Sample.arg "rest" ArgumentMatches.REST (PrefixStr "")) 0
                  eq_refl eq_refl) eq_refl).
Defined.

(** The cursor after the seven slots of [survey]: the word, the
    separate argument of the group and the second of the two arguments
    with a dynamic match type, which resolves to WORD after the first
    resolved to NONE, count; the flag, the cancel function and the
    skipped slot do not. *)
Lemma cursor_witness :
  exists s',
    process send survey "a b c --verbose" tt ["a "; "b "; "c "; "--verbose"] false
            ["a "; "b "; "c "] (args survey) 0 ∅ start
    = (Resolved (3, <["even" := VStr "c "]>
                      (<["odd" := VStr ""]>
                         (<["numbers" := VArr [VStr "b "; VStr "c "]]>
                            (<["verbose" := VBool true]>
                               (<["first" := VStr "a "]> ∅))))), s')
    /\ resolved_modes send survey "a b c --verbose" tt
                      ["a "; "b "; "c "; "--verbose"] false ["a "; "b "; "c "]
                      (args survey) 0 ∅ start
       = [Some ArgumentMatches.WORD; Some ArgumentMatches.FLAG; None; None;
          Some ArgumentMatches.SEPARATE; Some ArgumentMatches.NONE;
          Some ArgumentMatches.WORD]
    /\ 3 = 0 + Z.of_nat (positional_slots
                           (resolved_modes send survey "a b c --verbose" tt
                              ["a "; "b "; "c "; "--verbose"] false ["a "; "b "; "c "]
                              (args survey) 0 ∅ start)).
Proof.
  pose proof (surjective_pairing
                (process send survey "a b c --verbose" tt
                         ["a "; "b "; "c "; "--verbose"] false ["a "; "b "; "c "]
                         (args survey) 0 ∅ start)) as H.
  eexists. split; [exact H|]. split; [reflexivity|].
  exact (proj1 (proj1 (proj2 (cursor_spec send survey "a b c --verbose" tt))
                      ["a "; "b "; "c "; "--verbose"] false ["a "; "b "; "c "]
                      (args survey) [] 0 ∅ start _ _ _ H)).
Defined.

(** The mapping to which the parse of [survey] resolves on that content. *)
Example survey_example :
  fst (parse send survey "a b c --verbose" tt start)
  = Resolved (<["even" := VStr "c "]>
                (<["odd" := VStr ""]>
                   (<["numbers" := VArr [VStr "b "; VStr "c "]]>
                      (<["verbose" := VBool true]>
                         (<["first" := VStr "a "]> ∅))))).
Proof. reflexivity. Qed.

(** A comma as split option separates the words. *)
Example separator_example :
  fst (parse send listed "a,b,,c" tt start)
  = Resolved (<["numbers" := VArr [VStr "a"; VStr "b"; VStr ""; VStr "c"]]> ∅).
Proof. reflexivity. Qed.

(** The word [constructor] as split option: the parse fails after the
    split and the resolver is not called. *)
Lemma split_inherited_witness :
  args built <> []
  /\ split built = SplitString (ObjectPrototype.key ObjectPrototype.constructor)
  /\ parse send built "a b" tt start
     = (Rejected TypeError, {| world := O; trace := [SplitText "a b"] |}).
Proof.
  assert (H1 : args built <> []) by discriminate.
  assert (H2 : split built = SplitString (ObjectPrototype.key ObjectPrototype.constructor))
    by reflexivity.
  split; [exact H1|]. split; [exact H2|].
  exact (proj2 (split_inherited send built "a b" tt start
                  ObjectPrototype.constructor H1 H2) (or_introl eq_refl)).
Defined.

End Examples.
